(** * glumpy.gloo.shader: comment stripping, declaration extraction,
      driver diagnostics and the creation step of [Shader]

    A shallow embedding of [glumpy/gloo/shader.py].  Text is a list of
    8-bit characters (code points below 256); the regular expressions of
    the source are kept as syntax trees and run by a backtracking matcher
    with the priorities of Python's [re] module (ordered alternation,
    greedy and lazy repetition, capture groups, [$] under MULTILINE). *)

From Stdlib Require Import Ascii String.
From Stdlib Require Import List NArith ZArith Lia Bool Arith.
Import ListNotations.

Set Implicit Arguments.

(** ** Characters *)

Definition str := list ascii.

Definition lit (s : string) : str := list_ascii_of_string s.

Module Char.

Definition code (c : ascii) : N := N_of_ascii c.

Definition between (lo hi : N) (c : ascii) : bool :=
  ((lo <=? code c) && (code c <=? hi))%N.

Definition is_code (n : N) (c : ascii) : bool := (code c =? n)%N.

(** [\s] on a [str] pattern: Python's [str.isspace] on code points < 256. *)
Definition is_space (c : ascii) : bool :=
  between 9 13 c || between 28 32 c || is_code 133 c || is_code 160 c.

(** [\d]: the decimal digits. *)
Definition is_digit (c : ascii) : bool := between 48 57 c.

(** [\w]: alphanumerics and the underscore, on code points < 256. *)
Definition is_word (c : ascii) : bool :=
  is_digit c || between 65 90 c || between 97 122 c || is_code 95 c
  || is_code 170 c || between 178 179 c || is_code 181 c || between 185 186 c
  || between 188 190 c || between 192 214 c || between 216 246 c
  || between 248 255 c.

(** A character that cannot start a quoted run or a comment. *)
Definition plain (c : ascii) : bool :=
  negb (Ascii.eqb c "034"%char || Ascii.eqb c "039"%char
        || Ascii.eqb c "/"%char).

Definition nl : ascii := "010"%char.
Definition cr : ascii := "013"%char.
Definition dquote : ascii := "034"%char.
Definition squote : ascii := "039"%char.

Definition is_nl (c : ascii) : bool := Ascii.eqb c nl.

(** [.] without DOTALL *)
Definition not_nl (c : ascii) : bool := negb (is_nl c).

(** [.] with DOTALL *)
Definition any (_ : ascii) : bool := true.

(** [[^\r\n]] *)
Definition not_crlf (c : ascii) : bool :=
  negb (Ascii.eqb c cr) && negb (Ascii.eqb c nl).

(** [[\w,\[\] ]]: under VERBOSE the blank inside a class is kept. *)
Definition is_namelist (c : ascii) : bool :=
  is_word c || Ascii.eqb c ","%char || Ascii.eqb c "["%char
  || Ascii.eqb c "]"%char || Ascii.eqb c " "%char.

End Char.

(** ** Regular expressions and the backtracking matcher *)

Module Re.

(** Every repetition in the patterns of [shader.py] is over a single
    character class, so [Rep] repeats a class; [+] is a class followed by
    [Rep]. *)
Inductive regex : Type :=
| Eps
| Cls (p : ascii -> bool)
| Lit (w : str)
| Cat (r1 r2 : regex)
| Alt (r1 r2 : regex)
| Rep (greedy : bool) (p : ascii -> bool)
| Grp (n : nat) (r : regex)
| Eol.

Definition Plus (p : ascii -> bool) : regex := Cat (Cls p) (Rep true p).
Definition Opt (r : regex) : regex := Alt r Eps.

(** Captures, most recent first. *)
Definition caps := list (nat * str).

Fixpoint group (c : caps) (n : nat) : option str :=
  match c with
  | [] => None
  | (m, w) :: c' => if Nat.eqb m n then Some w else group c' n
  end.

Fixpoint strip_prefix (w s : str) : option str :=
  match w, s with
  | [], _ => Some s
  | a :: w', b :: s' => if Ascii.eqb a b then strip_prefix w' s' else None
  | _ :: _, [] => None
  end.

(** The text consumed between a suffix [s] and a later suffix [s']. *)
Definition consumed (s s' : str) : str :=
  firstn (length s - length s') s.

Definition orelse {A} (x y : option A) : option A :=
  match x with Some v => Some v | None => y end.

(** Where [$] holds under MULTILINE: at the end of the text or just
    before a newline. *)
Definition at_eol (s : str) : bool :=
  match s with [] => true | x :: _ => Char.is_nl x end.

Section Exec.
Context {A : Type}.

Fixpoint rep_greedy (p : ascii -> bool) (k : str -> option A) (s : str)
  : option A :=
  match s with
  | x :: s' => if p x then orelse (rep_greedy p k s') (k s) else k s
  | [] => k s
  end.

Fixpoint rep_lazy (p : ascii -> bool) (k : str -> option A) (s : str)
  : option A :=
  orelse (k s)
         match s with
         | x :: s' => if p x then rep_lazy p k s' else None
         | [] => None
         end.

(** [exec r k s c]: match [r] at the head of [s] with captures [c], then
    continue with [k]; [None] asks the caller to backtrack. *)
Fixpoint exec (r : regex) (k : str -> caps -> option A) (s : str) (c : caps)
  : option A :=
  match r with
  | Eps => k s c
  | Cls p =>
      match s with
      | x :: s' => if p x then k s' c else None
      | [] => None
      end
  | Lit w =>
      match strip_prefix w s with
      | Some s' => k s' c
      | None => None
      end
  | Cat r1 r2 => exec r1 (exec r2 k) s c
  | Alt r1 r2 => orelse (exec r1 k s c) (exec r2 k s c)
  | Rep true p => rep_greedy p (fun s' => k s' c) s
  | Rep false p => rep_lazy p (fun s' => k s' c) s
  | Grp n r => exec r (fun s' c' => k s' ((n, consumed s s') :: c')) s c
  | Eol => if at_eol s then k s c else None
  end.
End Exec.

(** A match object: the matched text and its groups. *)
Record Match : Type := mkMatch { text : str; groups : caps }.

(** [pattern.match] at the head of [s]. *)
Definition match_ (r : regex) (s : str) : option Match :=
  exec r (fun s' c => Some (mkMatch (consumed s s') c)) s [].

(** One step of the left-to-right scan shared by [finditer] and [sub]. *)
Inductive item : Type :=
| Keep (x : ascii)
| Hit (m : Match).

(** [scan r skip s]: [skip] characters of [s] still belong to the match
    found before.  An empty match is reported and the scan moves on by
    one character. *)
Fixpoint scan (r : regex) (skip : nat) (s : str) : list item :=
  match skip with
  | S n =>
      match s with
      | _ :: s' => scan r n s'
      | [] => []
      end
  | O =>
      match match_ r s with
      | Some m =>
          match s with
          | x :: s' =>
              match length (text m) with
              | O => Hit m :: Keep x :: scan r 0 s'
              | S n => Hit m :: scan r n s'
              end
          | [] => [Hit m]
          end
      | None =>
          match s with
          | x :: s' => Keep x :: scan r 0 s'
          | [] => []
          end
      end
  end.

Fixpoint hits (l : list item) : list Match :=
  match l with
  | [] => []
  | Keep _ :: l' => hits l'
  | Hit m :: l' => m :: hits l'
  end.

(** [re.finditer(r, s)] *)
Definition finditer (r : regex) (s : str) : list Match := hits (scan r 0 s).

(** [r.sub(f, s)] with a function replacement. *)
Definition sub (f : Match -> str) (r : regex) (s : str) : str :=
  flat_map (fun i => match i with Keep x => [x] | Hit m => f m end)
           (scan r 0 s).

(** *** What a match looks like

    [sem r w rest c c']: [r] can consume [w] in front of [rest], taking
    the captures from [c] to [c'].  This says which texts a pattern can
    match, not which of them the matcher prefers. *)
Inductive sem : regex -> str -> str -> caps -> caps -> Prop :=
| sem_Eps rest c : sem Eps [] rest c c
| sem_Cls p x rest c : p x = true -> sem (Cls p) [x] rest c c
| sem_Lit w rest c : sem (Lit w) w rest c c
| sem_Cat r1 r2 w1 w2 rest c c1 c2 :
    sem r1 w1 (w2 ++ rest) c c1 -> sem r2 w2 rest c1 c2 ->
    sem (Cat r1 r2) (w1 ++ w2) rest c c2
| sem_AltL r1 r2 w rest c c' : sem r1 w rest c c' -> sem (Alt r1 r2) w rest c c'
| sem_AltR r1 r2 w rest c c' : sem r2 w rest c c' -> sem (Alt r1 r2) w rest c c'
| sem_Rep g p w rest c : forallb p w = true -> sem (Rep g p) w rest c c
| sem_Grp n r w rest c c' :
    sem r w rest c c' -> sem (Grp n r) w rest c ((n, w) :: c')
| sem_Eol rest c : at_eol rest = true -> sem Eol [] rest c c.

(** A repetition of [p] cannot go on into [s]. *)
Definition stops (p : ascii -> bool) (s : str) : bool :=
  match s with [] => true | x :: _ => negb (p x) end.

End Re.

Declare Scope re_scope.
Delimit Scope re_scope with re.
Notation "r1 ;; r2" := (Re.Cat r1 r2) (at level 61, right associativity) : re_scope.
Notation "r1 || r2" := (Re.Alt r1 r2) : re_scope.

(** ** Numbers in text: [int(...)], ['%d'] and ['%03d'] *)

Module Num.

Definition digit_val (c : ascii) : nat := N.to_nat (Char.code c) - 48.

Definition digit_chr (d : nat) : ascii := ascii_of_nat (48 + d).

(** [int(s)] on a run of decimal digits (as captured by [\d+]). *)
Definition int (s : str) : nat :=
  fold_left (fun acc c => 10 * acc + digit_val c) s 0.

Fixpoint dec_loop (fuel n : nat) (acc : str) : str :=
  match fuel with
  | O => acc
  | S f =>
      let acc' := digit_chr (n mod 10) :: acc in
      if n <? 10 then acc' else dec_loop f (n / 10) acc'
  end.

(** ['%d' % n] for a non-negative [n]; [S n] rounds always suffice. *)
Definition dec (n : nat) : str := dec_loop (S n) n [].

(** ['%03d' % z]: sign, then zeros up to a total width of 3, then the
    digits. *)
Definition dec03 (z : Z) : str :=
  let sign := if (z <? 0)%Z then ["-"%char] else [] in
  let digits := dec (Z.abs_nat z) in
  sign ++ repeat "0"%char (3 - length sign - length digits) ++ digits.

End Num.

(** ** The shader object *)

Module Shader.

Import Re.
Local Open Scope re_scope.

(** Modelled from the spec: the constants of [glumpy.gl] named by
    [_gtypes] (the module is not among the sources), as the closed
    enumeration of type tags, one tag per constant. *)
Inductive gltype : Type :=
| GL_FLOAT | GL_FLOAT_VEC2 | GL_FLOAT_VEC3 | GL_FLOAT_VEC4
| GL_INT | GL_INT_VEC2 | GL_INT_VEC3 | GL_INT_VEC4
| GL_BOOL | GL_BOOL_VEC2 | GL_BOOL_VEC3 | GL_BOOL_VEC4
| GL_FLOAT_MAT2 | GL_FLOAT_MAT3 | GL_FLOAT_MAT4
| GL_SAMPLER_1D | GL_SAMPLER_2D.

(** Modelled from the spec: the two shader kinds of [glumpy.gl]. *)
Inductive shader_target : Type := GL_VERTEX_SHADER | GL_FRAGMENT_SHADER.

(** Exceptions raised by the module and by the built-ins it calls. *)
Inductive exn : Type :=
| RuntimeError (msg : str)
| ValueError (msg : str)
| KeyError (key : str)
| TypeError
| OSError (msg : str)
| UnicodeDecodeError (msg : str).

Inductive result (A : Type) : Type :=
| Ok (a : A)
| Raise (e : exn).
Arguments Ok {A} a.
Arguments Raise {A} e.

Definition bind {A B} (x : result A) (f : A -> result B) : result B :=
  match x with
  | Ok a => f a
  | Raise e => Raise e
  end.

Notation "'let*' x ':=' e1 'in' e2" := (bind e1 (fun x => e2))
  (at level 10, x name, e1 at level 100, e2 at level 200).

Definition _gtypes : list (str * gltype) :=
  [ (lit "float", GL_FLOAT);
    (lit "vec2", GL_FLOAT_VEC2);
    (lit "vec3", GL_FLOAT_VEC3);
    (lit "vec4", GL_FLOAT_VEC4);
    (lit "int", GL_INT);
    (lit "ivec2", GL_INT_VEC2);
    (lit "ivec3", GL_INT_VEC3);
    (lit "ivec4", GL_INT_VEC4);
    (lit "bool", GL_BOOL);
    (lit "bvec2", GL_BOOL_VEC2);
    (lit "bvec3", GL_BOOL_VEC3);
    (lit "bvec4", GL_BOOL_VEC4);
    (lit "mat2", GL_FLOAT_MAT2);
    (lit "mat3", GL_FLOAT_MAT3);
    (lit "mat4", GL_FLOAT_MAT4);
    (lit "sampler1D", GL_SAMPLER_1D);
    (lit "sampler2D", GL_SAMPLER_2D) ].

Definition str_eqb (a b : str) : bool :=
  if list_eq_dec ascii_dec a b then true else false.

Fixpoint lookup (d : list (str * gltype)) (key : str) : option gltype :=
  match d with
  | [] => None
  | (k, v) :: d' => if str_eqb k key then Some v else lookup d' key
  end.

(** [Shader._gtypes[key]]: a missing key raises [KeyError]. *)
Definition gtypes_getitem (key : str) : result gltype :=
  match lookup _gtypes key with
  | Some g => Ok g
  | None => Raise (KeyError key)
  end.

(** [m.group(n)] of a group that took part in the match; Python gives
    [None] otherwise, which the callers below test for where it can
    happen ([size], group 2 of the comment pattern). *)
Definition group_str (m : Match) (n : nat) : str :=
  match group (groups m) n with
  | Some w => w
  | None => []
  end.

(** *** [_parse_error] *)

(** Nvidia: [(\d+) \( (\d+) \) : \s ( .* )], written here with blanks
    between the pieces. *)
Definition re_nvidia : regex :=
  Grp 1 (Plus Char.is_digit) ;; Lit (lit "(") ;;
  Grp 2 (Plus Char.is_digit) ;; Lit (lit "):") ;;
  Cls Char.is_space ;; Grp 3 (Rep true Char.not_nl).

(** ATI / Intel: [ERROR: \s (\d+) : (\d+) : \s ( .* )] *)
Definition re_ati : regex :=
  Lit (lit "ERROR:") ;; Cls Char.is_space ;;
  Grp 1 (Plus Char.is_digit) ;; Lit (lit ":") ;;
  Grp 2 (Plus Char.is_digit) ;; Lit (lit ":") ;;
  Cls Char.is_space ;; Grp 3 (Rep true Char.not_nl).

(** Nouveau: [(\d+) : (\d+) \( (\d+) \) : \s ( .* )] *)
Definition re_nouveau : regex :=
  Grp 1 (Plus Char.is_digit) ;; Lit (lit ":") ;;
  Grp 2 (Plus Char.is_digit) ;; Lit (lit "(") ;;
  Grp 3 (Plus Char.is_digit) ;; Lit (lit "):") ;;
  Cls Char.is_space ;; Grp 4 (Rep true Char.not_nl).

Definition _parse_error (error : str) : result (nat * str) :=
  match match_ re_nvidia error with
  | Some m => Ok (Num.int (group_str m 2), group_str m 3)
  | None =>
      match match_ re_ati error with
      | Some m => Ok (Num.int (group_str m 2), group_str m 3)
      | None =>
          match match_ re_nouveau error with
          | Some m => Ok (Num.int (group_str m 2), group_str m 4)
          | None => Raise (ValueError (lit "Unknown GLSL error format"))
          end
      end
  end.

(** *** [_remove_comments] *)

(** Group 1: a double-quoted or a single-quoted run, lazy up to the next
    quote of the same kind.  Group 2: [/\* .*? \*/] or [// [^\r\n]* $].
    Flags MULTILINE and DOTALL. *)
Definition re_comment : regex :=
  Grp 1 ((Lit [Char.dquote] ;; Rep false Char.any ;; Lit [Char.dquote])
         || (Lit [Char.squote] ;; Rep false Char.any ;; Lit [Char.squote]))
  || Grp 2 ((Lit (lit "/*") ;; Rep false Char.any ;; Lit (lit "*/"))
            || (Lit (lit "//") ;; Rep true Char.not_crlf ;; Eol)).

Definition do_replace (m : Match) : str :=
  match group (groups m) 2 with
  | Some _ => []
  | None => group_str m 1
  end.

Definition _remove_comments (string : str) : str :=
  sub do_replace re_comment string.

(** *** [uniforms] and [attributes]

    The two properties have the same body up to the qualifier keyword in
    [re_type]; [declarations] is that body. *)

(** [\s*<qualifier>\s+(?P<type>\w+)\s+(?P<names>[\w,\[\] ]+);] (VERBOSE);
    group 1 is [type], group 2 is [names]. *)
Definition re_type (qualifier : str) : regex :=
  Rep true Char.is_space ;; Lit qualifier ;;
  Plus Char.is_space ;; Grp 1 (Plus Char.is_word) ;;
  Plus Char.is_space ;; Grp 2 (Plus Char.is_namelist) ;; Lit (lit ";").

(** [(?P<name>\w+)\s*(\[(?P<size>\d+)\])?] (VERBOSE); group 1 is [name],
    group 3 is [size]. *)
Definition re_names : regex :=
  Grp 1 (Plus Char.is_word) ;; Rep true Char.is_space ;;
  Opt (Grp 2 (Lit (lit "[") ;; Grp 3 (Plus Char.is_digit) ;; Lit (lit "]"))).

Definition entry : Type := (str * gltype)%type.

(** ['%s[%d]' % (name, i)] *)
Definition iname (name : str) (i : nat) : str :=
  name ++ lit "[" ++ Num.dec i ++ lit "]".

(** The body of the inner loop for one match of [re_names]; [acc] is the
    list being appended to. *)
Definition add_name (gtype : gltype) (acc : list entry) (m : Match)
  : result (list entry) :=
  let name := group_str m 1 in
  match group (groups m) 3 with
  | None => Ok (acc ++ [(name, gtype)])
  | Some size =>
      let size := Num.int size in
      if size =? 0
      then Raise (RuntimeError (lit "Size of uniform array cannot be zero"))
      else Ok (acc ++ map (fun i => (iname name i, gtype)) (seq 0 size))
  end.

Fixpoint for_each {M} (body : list entry -> M -> result (list entry))
  (acc : list entry) (ms : list M) : result (list entry) :=
  match ms with
  | [] => Ok acc
  | m :: ms' => let* acc' := body acc m in for_each body acc' ms'
  end.

(** The body of the outer loop for one match of [re_type]. *)
Definition add_declaration (acc : list entry) (m : Match)
  : result (list entry) :=
  let* gtype := gtypes_getitem (group_str m 1) in
  let names := group_str m 2 in
  for_each (add_name gtype) acc (finditer re_names names).

Definition declarations (qualifier : str) (code : str)
  : result (list entry) :=
  let code := _remove_comments code in
  for_each add_declaration [] (finditer (re_type qualifier) code).

(** *** [_print_error] *)

(** [s.split('\n')] *)
Fixpoint split_lines (s : str) : list str :=
  match s with
  | [] => [[]]
  | x :: s' =>
      if Char.is_nl x then [] :: split_lines s'
      else match split_lines s' with
           | l :: ls => (x :: l) :: ls
           | [] => [[x]]
           end
  end.

(** A slice bound as Python normalises it for a list of length [len]. *)
Definition slice_index (len i : Z) : Z :=
  (if i <? 0 then Z.max 0 (i + len) else Z.min i len)%Z.

(** [l[start:stop]] *)
Definition slice {A} (l : list A) (start stop : Z) : list A :=
  let len := Z.of_nat (length l) in
  let a := slice_index len start in
  let b := slice_index len stop in
  firstn (Z.to_nat (b - a)) (skipn (Z.to_nat a) l).

Definition enumerate {A} (l : list A) : list (nat * A) :=
  combine (seq 0 (length l)) l.

(** [' %03d %s' % (n, line)] *)
Definition numbered (n : Z) (line : str) : str :=
  lit " " ++ Num.dec03 n ++ lit " " ++ line.

(** The lines printed by the loop of [_print_error] for one element of
    [enumerate(lines[start:end])]. *)
Definition print_line (start lineno : Z) (il : nat * str) : list str :=
  let '(i, line) := il in
  if (Z.of_nat i + start =? lineno)%Z
  then [numbered (Z.of_nat i + start) line]
  else if 0 <? length line
       then [numbered (Z.of_nat i + start) line]
       else [].

(** [_print_error]: the result is the list of printed lines, one per call
    of [print]; [repr] is [repr(self)] and [code] is [self._code]. *)
Definition _print_error (repr code error : str) (lineno : Z) : list str :=
  let lines := split_lines code in
  let start := Z.max 0 (lineno - 3) in
  let end_ := Z.min (Z.of_nat (length lines)) (lineno + 3) in
  [lit "Error in " ++ repr; lit " -> " ++ error; []]
  ++ (if (0 <? start)%Z then [lit " ..."] else [])
  ++ flat_map (print_line start lineno) (enumerate (slice lines start end_))
  ++ (if (end_ <? Z.of_nat (length lines))%Z then [lit " ..."] else [])
  ++ [[]].

(** *** The object state and [_create]

    [_handle], [_id] and [_need_update] are the attributes inherited from
    [GLObject] (module [glumpy.gloo.globject]); they are kept as fields. *)
Record shader : Type := mkShader {
  _target : shader_target;
  _code : option str;
  _source : option str;
  _handle : Z;
  _id : Z;
  _need_update : bool
}.

Definition set_handle (self : shader) (h : Z) : shader :=
  mkShader (_target self) (_code self) (_source self) h (_id self)
           (_need_update self).

(** ['%d' % z] *)
Definition fmt_d (z : Z) : str :=
  (if (z <? 0)%Z then ["-"%char] else []) ++ Num.dec (Z.abs_nat z).

(** [__repr__] of [VertexShader] and [FragmentShader], which are the
    classes built on the two targets. *)
Definition repr (self : shader) : str :=
  (match _target self with
   | GL_VERTEX_SHADER => lit "Vertex Shader "
   | GL_FRAGMENT_SHADER => lit "Fragment Shader "
   end)
  ++ fmt_d (_id self) ++ lit " ("
  ++ (match _source self with Some s => s | None => lit "None" end)
  ++ lit ")".

(** Calls to the graphics API and to the logger, in program order. *)
Inductive call : Type :=
| glCreateShader (target : shader_target)
| glShaderSource (handle : Z) (code : str)
| log_debug (msg : str)
| glCompileShader (handle : Z)
| glGetShaderiv (handle : Z)
| glGetShaderInfoLog (handle : Z).

(** Modelled from the spec: the graphics API of [glumpy.gl] as the
    answers it gives, to [glCreateShader], to [glGetShaderiv] with
    [GL_COMPILE_STATUS] and to [glGetShaderInfoLog]. *)
Record driver : Type := mkDriver {
  create_shader : shader_target -> Z;
  compile_status : Z -> str -> Z;
  info_log : Z -> str -> str
}.

Record outcome : Type := mkOutcome {
  returned : result unit;
  state : shader;
  calls : list call;
  printed : list str
}.

(** [not self._code] *)
Definition no_code (self : shader) : bool :=
  match _code self with
  | None => true
  | Some [] => true
  | Some (_ :: _) => false
  end.

Definition _create (gl : driver) (self : shader) : outcome :=
  if no_code self
  then mkOutcome (Raise (RuntimeError (lit "No code has been given")))
                 self [] []
  else
    let code := match _code self with Some c => c | None => [] end in
    let '(self, calls0) :=
      if (_handle self <=? 0)%Z
      then (set_handle self (create_shader gl (_target self)),
            [glCreateShader (_target self)])
      else (self, []) in
    if (_handle self <=? 0)%Z
    then mkOutcome (Raise (RuntimeError (lit "Cannot create shader object")))
                   self calls0 []
    else
      let h := _handle self in
      let calls1 :=
        calls0 ++ [glShaderSource h code; log_debug (lit "GPU: Creating shader");
                   glCompileShader h; glGetShaderiv h] in
      if (compile_status gl h code =? 0)%Z
      then
        let error := info_log gl h code in
        let calls2 := calls1 ++ [glGetShaderInfoLog h] in
        match _parse_error error with
        | Raise e => mkOutcome (Raise e) self calls2 []
        | Ok (lineno, mesg) =>
            mkOutcome (Raise (RuntimeError (lit "Shader compilation error")))
                      self calls2
                      (_print_error (repr self) code mesg (Z.of_nat lineno - 1))
        end
      else mkOutcome (Ok tt) self calls1 [].

(** *** The two properties as methods on the state

    A property read returns its value and the state after the read.  The
    bodies read [self._code] and assign to no attribute of [self]; the
    list they build is local to the call. *)
Definition read_declarations (qualifier : str) (self : shader)
  : result (list entry) * shader :=
  (match _code self with
   | Some code => declarations qualifier code
   | None => Raise TypeError
   end, self).

Definition uniforms : shader -> result (list entry) * shader :=
  read_declarations (lit "uniform").

Definition attributes : shader -> result (list entry) * shader :=
  read_declarations (lit "attribute").

End Shader.

(** ** Vocabulary of the statements

    Declarations as abstract syntax with their layout, the three
    diagnostic formats, and the pieces into which the comment pattern cuts
    a text.  These are what the theorems below compare the code with. *)

Module Syntax.

Import Re Shader.

Definition nonempty {A} (w : list A) : bool :=
  match w with [] => false | _ :: _ => true end.

(** A non-empty run of characters of one class. *)
Definition run (p : ascii -> bool) (w : str) : bool :=
  nonempty w && forallb p w.

Definition spaces (n : nat) : str := repeat " "%char n.


















(** The outcome of a read followed by more entries. *)
Definition prepend (es : list entry) (r : result (list entry))
  : result (list entry) :=
  match r with
  | Ok tail => Ok (es ++ tail)
  | Raise e => Raise e
  end.

(** The three diagnostic formats with the line number and the message
    each one carries: [N(L): message], [ERROR: S:L: message],
    [S:L(C): message]; the message runs to the end of the line. *)
Inductive diagnostic : str -> nat -> str -> Prop :=
| Nvidia n l sp msg rest :
    run Char.is_digit n = true -> run Char.is_digit l = true ->
    Char.is_space sp = true ->
    forallb Char.not_nl msg = true -> at_eol rest = true ->
    diagnostic (n ++ lit "(" ++ l ++ lit "):" ++ sp :: msg ++ rest)
               (Num.int l) msg
| Ati sp0 s l sp msg rest :
    Char.is_space sp0 = true ->
    run Char.is_digit s = true -> run Char.is_digit l = true ->
    Char.is_space sp = true ->
    forallb Char.not_nl msg = true -> at_eol rest = true ->
    diagnostic (lit "ERROR:" ++ sp0 :: s ++ lit ":" ++ l ++ lit ":"
                ++ sp :: msg ++ rest)
               (Num.int l) msg
| Nouveau s l col sp msg rest :
    run Char.is_digit s = true -> run Char.is_digit l = true ->
    run Char.is_digit col = true ->
    Char.is_space sp = true ->
    forallb Char.not_nl msg = true -> at_eol rest = true ->
    diagnostic (s ++ lit ":" ++ l ++ lit "(" ++ col ++ lit "):"
                ++ sp :: msg ++ rest)
               (Num.int l) msg.

(** The pieces of a text under the comment pattern: single characters
    and quoted runs are kept, comments are dropped. *)
Definition piece : Type := (bool * str)%type.

Definition piece_of (i : item) : piece :=
  match i with
  | Keep x => (true, [x])
  | Hit m =>
      (match group (groups m) 2 with Some _ => false | None => true end,
       text m)
  end.

Definition pieces (s : str) : list piece := map piece_of (scan re_comment 0 s).

Definition kept (ps : list piece) : str :=
  concat (map snd (filter fst ps)).

Definition dropped (ps : list piece) : str :=
  concat (map snd (filter (fun p => negb (fst p)) ps)).

Definition whole (ps : list piece) : str := concat (map snd ps).

(** Number of newlines, i.e. the zero-based line on which the text that
    follows starts. *)
Definition newlines (s : str) : nat := length (filter Char.is_nl s).

(** The numbered lines shown for the indices [a], [a+1], ..: the line
    [lineno] always, any other line unless it is empty. *)
Fixpoint window (lineno : Z) (a : Z) (ls : list str) : list str :=
  match ls with
  | [] => []
  | line :: ls' =>
      (if (a =? lineno)%Z || nonempty line then [numbered a line] else [])
      ++ window lineno (a + 1) ls'
  end.

(** A shader object holding literal source text, as the [code] setter
    leaves it. *)
Definition sample (code : str) : shader :=
  mkShader GL_VERTEX_SHADER (Some code) (Some (lit "<string>")) 0 1 true.

(** Reading a property: which one. *)
Inductive property : Type := Uniforms | Attributes.

Definition read (p : property) : shader -> result (list entry) * shader :=
  match p with
  | Uniforms => uniforms
  | Attributes => attributes
  end.

End Syntax.

(** ** The rest of the object: construction and the [code] setter *)

Module Lifecycle.

Import Re Shader.

(** [os.path.basename] with the separator [/]: what follows the last
    slash. *)
Fixpoint basename_from (acc : str) (p : str) : str :=
  match p with
  | [] => rev acc
  | x :: p' =>
      if Ascii.eqb x "/"%char then basename_from [] p'
      else basename_from (x :: acc) p'
  end.

Definition basename (p : str) : str := basename_from [] p.

(** The file system as the setter sees it: [os.path.isfile], and what
    [open(path, 'rt')] followed by [file.read()] gives, the text of the
    file or the exception raised when the file cannot be opened
    ([OSError]) or decoded ([UnicodeDecodeError]). *)
Record filesystem : Type := mkFilesystem {
  isfile : str -> bool;
  read_text : str -> result str
}.

(** The setter of [code]: what the assignment returns or raises, and the
    object as it is then.  When the file cannot be read the exception
    leaves the [with] block before [_code] is assigned, and [_source] and
    [_need_update] are not reached; [_handle] and [_id] are never
    touched. *)
Definition set_code (fs : filesystem) (self : shader) (code : str)
  : result unit * shader :=
  if isfile fs code
  then match read_text fs code with
       | Ok text =>
           (Ok tt,
            mkShader (_target self) (Some text) (Some (basename code))
                     (_handle self) (_id self) true)
       | Raise e => (Raise e, self)
       end
  else (Ok tt,
        mkShader (_target self) (Some code) (Some (lit "<string>"))
                 (_handle self) (_id self) true).

(** The getters of [code] and [source]. *)
Definition get_code (self : shader) : option str := _code self.

Definition source (self : shader) : option str := _source self.

(** The numbers [gl.GL_VERTEX_SHADER] and [gl.GL_FRAGMENT_SHADER], and the
    attributes as [GLObject.__init__] leaves them; neither module is among
    the sources, so they are parameters of the constructor. *)
Record environment : Type := mkEnvironment {
  vertex_enum : Z;
  fragment_enum : Z;
  fresh_handle : Z;
  fresh_id : Z;
  fresh_need_update : bool;
  files : filesystem
}.

(** [target in [gl.GL_VERTEX_SHADER, gl.GL_FRAGMENT_SHADER]], with the
    kind the target stands for. *)
Definition target_kind (env : environment) (target : Z) : option shader_target :=
  if (target =? vertex_enum env)%Z then Some GL_VERTEX_SHADER
  else if (target =? fragment_enum env)%Z then Some GL_FRAGMENT_SHADER
  else None.

(** [Shader.__init__(self, target, code=None)] *)
Definition __init__ (env : environment) (target : Z) (code : option str)
  : result shader :=
  match target_kind env target with
  | None => Raise (ValueError (lit "Shader target must be vertex or fragment"))
  | Some kind =>
      let self := mkShader kind None None (fresh_handle env) (fresh_id env)
                           (fresh_need_update env) in
      match code with
      | Some code =>
          match set_code (files env) self code with
          | (Ok _, self') => Ok self'
          | (Raise e, _) => Raise e
          end
      | None => Ok self
      end
  end.

(** [VertexShader(code)] and [FragmentShader(code)] *)
Definition VertexShader (env : environment) (code : option str) : result shader :=
  __init__ env (vertex_enum env) code.

Definition FragmentShader (env : environment) (code : option str)
  : result shader :=
  __init__ env (fragment_enum env) code.

(** No [*/] inside a text. *)
Fixpoint no_close (body : str) : bool :=
  match body with
  | [] => true
  | a :: body' =>
      negb (Ascii.eqb a "*"%char
            && match body' with b :: _ => Ascii.eqb b "/"%char | [] => false end)
      && no_close body'
  end.

End Lifecycle.

(** ** Declarations in a source

    A source as the theorems on [uniforms] and [attributes] take it:
    declarations, each after a gap made of comments and of other text. *)

Module Layout.

Import Re Shader Syntax Lifecycle.













End Layout.

(** ** The two properties as programs on the object store

    In the source a property builds a list object, appends to it inside
    two loops and returns it.  Here the shader and the list objects live
    on a heap; a list is known by its address, and [append] changes the
    list at an address in place, as [list.append] does. *)

Module Store.

Import Re Shader Lifecycle.

Record heap : Type := mkHeap {
  object : shader;
  lists : list (list entry)
}.

(** A computation: the value returned or the exception raised, and the
    heap as it is then. *)
Definition M (A : Type) : Type := heap -> result A * heap.

Definition ret {A} (a : A) : M A := fun h => (Ok a, h).

Definition raise {A} (e : exn) : M A := fun h => (Raise e, h).

Definition seq_ {A B} (m : M A) (f : A -> M B) : M B :=
  fun h =>
    match m h with
    | (Ok a, h') => f a h'
    | (Raise e, h') => (Raise e, h')
    end.

Notation "'let!' x ':=' m 'in' f" := (seq_ m (fun x => f))
  (at level 10, x name, m at level 100, f at level 200).

Fixpoint update {A} (a : nat) (f : A -> A) (l : list A) : list A :=
  match l, a with
  | [], _ => []
  | x :: l', O => f x :: l'
  | x :: l', S a' => x :: update a' f l'
  end.

(** [self._code] *)
Definition get_code : M (option str) := fun h => (Ok (_code (object h)), h).

(** [[]]: a new list object, at an address not in use. *)
Definition new_list : M nat :=
  fun h => (Ok (length (lists h)), mkHeap (object h) (lists h ++ [[]])).

(** [l.append(e)] on the list at address [l]. *)
Definition append (l : nat) (e : entry) : M unit :=
  fun h => (Ok tt, mkHeap (object h) (update l (fun es => es ++ [e]) (lists h))).

(** [for x in xs: body] *)
Fixpoint each {X} (body : X -> M unit) (xs : list X) : M unit :=
  match xs with
  | [] => ret tt
  | x :: xs' => let! _ := body x in each body xs'
  end.

(** The body of the inner loop, appending to the list at [l]. *)
Definition add_name (gtype : gltype) (l : nat) (m : Match) : M unit :=
  let name := group_str m 1 in
  match group (groups m) 3 with
  | None => append l (name, gtype)
  | Some size =>
      let size := Num.int size in
      if size =? 0
      then raise (RuntimeError (lit "Size of uniform array cannot be zero"))
      else each (fun i => append l (iname name i, gtype)) (seq 0 size)
  end.

(** The body of the outer loop. *)
Definition add_declaration (l : nat) (m : Match) : M unit :=
  match gtypes_getitem (group_str m 1) with
  | Raise e => raise e
  | Ok gtype =>
      each (add_name gtype l) (finditer re_names (group_str m 2))
  end.

(** The body of [uniforms] and of [attributes]: the new list, the
    stripped code, the loops, and the list returned. *)
Definition read_declarations (qualifier : str) : M nat :=
  let! l := new_list in
  let! code := get_code in
  match code with
  | None => raise TypeError
  | Some code =>
      let code := _remove_comments code in
      let! _ := each (add_declaration l) (finditer (re_type qualifier) code) in
      ret l
  end.

Definition uniforms : M nat := read_declarations (lit "uniform").

Definition attributes : M nat := read_declarations (lit "attribute").

Definition read (p : Syntax.property) : M nat :=
  match p with
  | Syntax.Uniforms => uniforms
  | Syntax.Attributes => attributes
  end.

(** The setter of [code] on the heap: it assigns to attributes of the
    shader object and touches no list. *)
Definition set_code (fs : filesystem) (code : str) : M unit :=
  fun h =>
    let '(r, self) := Lifecycle.set_code fs (object h) code in
    (r, mkHeap self (lists h)).

(** The list at an address. *)
Definition deref (h : heap) (l : nat) : list entry := nth l (lists h) [].

(** What the caller of a property holds: the elements of the list
    returned, or the exception. *)
Definition value (out : result nat * heap) : result (list entry) :=
  match fst out with
  | Ok l => Ok (deref (snd out) l)
  | Raise e => Raise e
  end.

(** While the loops run, the list under construction is the last object
    of the heap; they change nothing else, and what they do to it is what
    the functional loops compute. *)
Definition tracks (o : shader) (L : list (list entry))
  (pure : result (list entry)) (out : result unit * heap) : Prop :=
  exists acc', snd out = mkHeap o (L ++ [acc'])
    /\ match pure with
       | Ok es => fst out = Ok tt /\ acc' = es
       | Raise e => fst out = Raise e
       end.

End Store.

(** * Facts *)

Unset Implicit Arguments.

(** ** Characters *)

Section CharFacts.

Import Char.

Ltac each_char c :=
  destruct c as [[] [] [] [] [] [] [] []];
  vm_compute; intros; try reflexivity; try discriminate; auto.

Lemma word_not_space c : is_word c = true -> is_space c = false.
Proof. each_char c. Qed.

Lemma space_not_word c : is_space c = true -> is_word c = false.
Proof. each_char c. Qed.

Lemma digit_is_word c : is_digit c = true -> is_word c = true.
Proof. each_char c. Qed.

Lemma word_is_namelist c : is_word c = true -> is_namelist c = true.
Proof. unfold is_namelist. intros ->. reflexivity. Qed.


Lemma namelist_plain c : is_namelist c = true -> plain c = true.
Proof. each_char c. Qed.

Lemma word_plain c : is_word c = true -> plain c = true.
Proof. intros H. apply namelist_plain, word_is_namelist, H. Qed.

Lemma digit_val_chr d : d < 10 -> Num.digit_val (Num.digit_chr d) = d.
Proof.
  intros H. do 10 (destruct d as [|d]; [reflexivity|]). lia.
Qed.

Lemma digit_chr_digit d : d < 10 -> is_digit (Num.digit_chr d) = true.
Proof.
  intros H. do 10 (destruct d as [|d]; [reflexivity|]). lia.
Qed.

Lemma eqb_false_of_class (p : ascii -> bool) a c :
  p a = false -> p c = true -> Ascii.eqb a c = false.
Proof.
  intros Ha Hc. destruct (Ascii.eqb a c) eqn:E; [|reflexivity].
  apply Ascii.eqb_eq in E. subst. congruence.
Qed.

End CharFacts.

(** ** Lists of characters *)

Section ListFacts.

Lemma forallb_app_iff {A} (p : A -> bool) (l1 l2 : list A) :
  forallb p (l1 ++ l2) = true <-> forallb p l1 = true /\ forallb p l2 = true.
Proof. rewrite forallb_app, andb_true_iff. tauto. Qed.

Lemma forallb_impl {A} (p q : A -> bool) (l : list A) :
  (forall x, p x = true -> q x = true) ->
  forallb p l = true -> forallb q l = true.
Proof.
  intros H. induction l as [|x l IH]; simpl; [reflexivity|].
  rewrite !andb_true_iff. intros [Hx Hl]. auto.
Qed.

Lemma forallb_repeat {A} (p : A -> bool) (x : A) n :
  p x = true -> forallb p (repeat x n) = true.
Proof. intros H. induction n; simpl; [reflexivity|]. now rewrite H, IHn. Qed.

Lemma run_inv (p : ascii -> bool) w :
  Syntax.run p w = true ->
  exists x w', w = x :: w' /\ p x = true /\ forallb p w' = true.
Proof.
  unfold Syntax.run. destruct w as [|x w']; simpl; [discriminate|].
  rewrite andb_true_iff. intros [Hx Hw]. eauto.
Qed.

Lemma run_forallb (p : ascii -> bool) w :
  Syntax.run p w = true -> forallb p w = true.
Proof. unfold Syntax.run. rewrite andb_true_iff. tauto. Qed.

Lemma run_intro (p : ascii -> bool) x w :
  p x = true -> forallb p w = true -> Syntax.run p (x :: w) = true.
Proof. intros Hx Hw. unfold Syntax.run. simpl. now rewrite Hx, Hw. Qed.

(** A text splits, in one way only, into its longest prefix in a class
    and the rest. *)
Lemma span_unique (p : ascii -> bool) (w1 w2 r1 r2 : str) :
  forallb p w1 = true -> forallb p w2 = true ->
  Re.stops p r1 = true -> Re.stops p r2 = true ->
  w1 ++ r1 = w2 ++ r2 -> w1 = w2 /\ r1 = r2.
Proof.
  revert w2. induction w1 as [|a w1 IH]; intros [|b w2]; simpl;
    intros H1 H2 S1 S2 E.
  - auto.
  - subst r1. simpl in S1. apply andb_true_iff in H2 as [Hb _].
    rewrite Hb in S1. discriminate.
  - subst r2. simpl in S2. apply andb_true_iff in H1 as [Ha _].
    rewrite Ha in S2. discriminate.
  - injection E as -> E.
    apply andb_true_iff in H1 as [_ H1]. apply andb_true_iff in H2 as [_ H2].
    destruct (IH w2 H1 H2 S1 S2 E) as [-> ->]. auto.
Qed.

Lemma span_exists (p : ascii -> bool) (s : str) :
  exists w r, s = w ++ r /\ forallb p w = true /\ Re.stops p r = true.
Proof.
  induction s as [|x s (w & r & -> & Hw & Hr)].
  - exists [], []. auto.
  - destruct (p x) eqn:E.
    + exists (x :: w), r. simpl. rewrite E, Hw. auto.
    + exists [], (x :: w ++ r). simpl. rewrite E. auto.
Qed.

End ListFacts.

(** ** The matcher *)

Section ReFacts.

Import Re.

Lemma strip_prefix_app w s : strip_prefix w (w ++ s) = Some s.
Proof.
  induction w as [|a w IH]; simpl; [reflexivity|].
  now rewrite Ascii.eqb_refl.
Qed.

Lemma strip_prefix_Some w s s' : strip_prefix w s = Some s' -> s = w ++ s'.
Proof.
  revert s. induction w as [|a w IH]; intros s; simpl.
  - now intros [= ->].
  - destruct s as [|b s]; [discriminate|].
    destruct (Ascii.eqb a b) eqn:E; [|discriminate].
    apply Ascii.eqb_eq in E. subst b. intros H. now rewrite (IH _ H).
Qed.

Lemma consumed_app w s : consumed (w ++ s) s = w.
Proof.
  unfold consumed. rewrite length_app.
  replace (length w + length s - length s) with (length w) by lia.
  rewrite firstn_app, firstn_all, Nat.sub_diag. simpl. apply app_nil_r.
Qed.

Section Direct.
Context {A : Type}.
Implicit Types (k : str -> caps -> option A) (v : A).

(** *** Following the path the matcher prefers *)

Lemma rep_greedy_run p (k1 : str -> option A) w rest v :
  forallb p w = true -> stops p rest = true -> k1 rest = Some v ->
  rep_greedy p k1 (w ++ rest) = Some v.
Proof.
  intros Hw Hr Hk. induction w as [|x w IH]; simpl.
  - destruct rest as [|y rest]; [exact Hk|].
    simpl in Hr. apply negb_true_iff in Hr. simpl. now rewrite Hr.
  - simpl in Hw. apply andb_true_iff in Hw as [Hx Hw].
    rewrite Hx, (IH Hw). reflexivity.
Qed.

Lemma exec_star p k w rest c v :
  forallb p w = true -> stops p rest = true -> k rest c = Some v ->
  exec (Rep true p) k (w ++ rest) c = Some v.
Proof. intros. simpl. now apply rep_greedy_run. Qed.

Lemma exec_plus p k w rest c v :
  Syntax.run p w = true -> stops p rest = true -> k rest c = Some v ->
  exec (Plus p) k (w ++ rest) c = Some v.
Proof.
  intros Hw Hr Hk. apply run_inv in Hw as (x & w' & -> & Hx & Hw).
  simpl. rewrite Hx. now apply rep_greedy_run.
Qed.

Lemma exec_lit w k rest c : exec (Lit w) k (w ++ rest) c = k rest c.
Proof. simpl. now rewrite strip_prefix_app. Qed.

Lemma exec_cat r1 r2 k s c : exec (Cat r1 r2) k s c = exec r1 (exec r2 k) s c.
Proof. reflexivity. Qed.

Lemma exec_grp n r k s c :
  exec (Grp n r) k s c =
  exec r (fun s' c' => k s' ((n, consumed s s') :: c')) s c.
Proof. reflexivity. Qed.

Lemma exec_grp_plus n p k w rest c v :
  Syntax.run p w = true -> stops p rest = true ->
  k rest ((n, w) :: c) = Some v ->
  exec (Grp n (Plus p)) k (w ++ rest) c = Some v.
Proof.
  intros Hw Hr Hk. rewrite exec_grp. apply exec_plus; auto.
  now rewrite consumed_app.
Qed.

(** *** Every result comes from a match *)

Lemma rep_greedy_sound p (k1 : str -> option A) s v :
  rep_greedy p k1 s = Some v ->
  exists w s', s = w ++ s' /\ forallb p w = true /\ k1 s' = Some v.
Proof.
  induction s as [|x s IH]; simpl.
  - intros H. exists [], []. auto.
  - destruct (p x) eqn:E.
    + destruct (rep_greedy p k1 s) as [v'|] eqn:R; simpl.
      * intros [= <-]. destruct (IH eq_refl) as (w & s' & -> & Hw & Hk).
        exists (x :: w), s'. simpl. rewrite E, Hw. auto.
      * intros H. exists [], (x :: s). auto.
    + intros H. exists [], (x :: s). auto.
Qed.

Lemma rep_lazy_sound p (k1 : str -> option A) s v :
  rep_lazy p k1 s = Some v ->
  exists w s', s = w ++ s' /\ forallb p w = true /\ k1 s' = Some v.
Proof.
  induction s as [|x s IH]; simpl.
  - destruct (k1 []) eqn:K; simpl; [|discriminate].
    intros [= <-]. exists [], []. auto.
  - destruct (k1 (x :: s)) eqn:K; simpl.
    + intros [= <-]. exists [], (x :: s). auto.
    + destruct (p x) eqn:E; [|discriminate].
      intros H. destruct (IH H) as (w & s' & -> & Hw & Hk).
      exists (x :: w), s'. simpl. rewrite E, Hw. auto.
Qed.

Lemma exec_sound r : forall k s c v,
  exec r k s c = Some v ->
  exists w s' c', s = w ++ s' /\ sem r w s' c c' /\ k s' c' = Some v.
Proof.
  induction r as [|p|w0|r1 IH1 r2 IH2|r1 IH1 r2 IH2|g p|n r IH|];
    intros k s c v H; simpl in H.
  - exists [], s, c. repeat split; auto. constructor.
  - destruct s as [|x s]; [discriminate|].
    destruct (p x) eqn:E; [|discriminate].
    exists [x], s, c. repeat split; auto. now constructor.
  - destruct (strip_prefix w0 s) as [s'|] eqn:E; [|discriminate].
    apply strip_prefix_Some in E. subst s.
    exists w0, s', c. repeat split; auto. constructor.
  - apply IH1 in H as (w1 & s1 & c1 & -> & S1 & H).
    apply IH2 in H as (w2 & s2 & c2 & -> & S2 & H).
    exists (w1 ++ w2), s2, c2. rewrite <- app_assoc.
    repeat split; auto. econstructor; eauto.
  - destruct (exec r1 k s c) as [v'|] eqn:E; simpl in H.
    + injection H as <-. apply IH1 in E as (w & s' & c' & -> & S & K).
      exists w, s', c'. repeat split; auto. now apply sem_AltL.
    + apply IH2 in H as (w & s' & c' & -> & S & K).
      exists w, s', c'. repeat split; auto. now apply sem_AltR.
  - destruct g.
    + apply rep_greedy_sound in H as (w & s' & -> & Hw & K).
      exists w, s', c. repeat split; auto. now constructor.
    + apply rep_lazy_sound in H as (w & s' & -> & Hw & K).
      exists w, s', c. repeat split; auto. now constructor.
  - apply IH in H as (w & s' & c' & -> & S & K).
    rewrite consumed_app in K.
    exists w, s', ((n, w) :: c'). repeat split; auto. now constructor.
  - destruct (at_eol s) eqn:E; [|discriminate].
    exists [], s, c. repeat split; auto. now constructor.
Qed.
End Direct.

Lemma match_sound r s m :
  match_ r s = Some m ->
  exists rest, s = text m ++ rest /\ sem r (text m) rest [] (groups m).
Proof.
  unfold match_. intros H.
  apply exec_sound in H as (w & s' & c' & -> & S & [= <-]).
  simpl. rewrite consumed_app. eauto.
Qed.

(** *** The scan *)

Lemma scan_skip r n w rest :
  length w = n -> scan r n (w ++ rest) = scan r 0 rest.
Proof.
  revert n. induction w as [|x w IH]; intros n <-; simpl; [reflexivity|].
  now apply IH.
Qed.

Lemma scan_hit r w rest c :
  match_ r (w ++ rest) = Some (mkMatch w c) -> w <> [] ->
  scan r 0 (w ++ rest) = Hit (mkMatch w c) :: scan r 0 rest.
Proof.
  intros H Hw. destruct w as [|x w]; [congruence|].
  simpl scan. simpl app in H. rewrite H. simpl.
  now rewrite scan_skip.
Qed.

Lemma scan_keep r x s :
  match_ r (x :: s) = None -> scan r 0 (x :: s) = Keep x :: scan r 0 s.
Proof. intros H. simpl. now rewrite H. Qed.

Lemma finditer_hit r w rest c :
  match_ r (w ++ rest) = Some (mkMatch w c) -> w <> [] ->
  finditer r (w ++ rest) = mkMatch w c :: finditer r rest.
Proof. intros H Hw. unfold finditer. rewrite scan_hit with (c := c); auto. Qed.

Lemma finditer_keep r x s :
  match_ r (x :: s) = None -> finditer r (x :: s) = finditer r s.
Proof. intros H. unfold finditer. now rewrite scan_keep. Qed.

Lemma finditer_keep_all r (p : ascii -> bool) w s :
  (forall x t, p x = true -> match_ r (x :: t) = None) ->
  forallb p w = true -> finditer r (w ++ s) = finditer r s.
Proof.
  intros Hp. induction w as [|x w IH]; simpl; [reflexivity|].
  rewrite andb_true_iff. intros [Hx Hw].
  rewrite finditer_keep by now apply Hp. auto.
Qed.

Lemma sub_keep_all f r (p : ascii -> bool) w s :
  (forall x t, p x = true -> match_ r (x :: t) = None) ->
  forallb p w = true -> sub f r (w ++ s) = w ++ sub f r s.
Proof.
  intros Hp. induction w as [|x w IH]; simpl; [reflexivity|].
  rewrite andb_true_iff. intros [Hx Hw].
  unfold sub in *. rewrite scan_keep by now apply Hp.
  simpl. now rewrite IH.
Qed.

End ReFacts.

(** ** Tactics *)

(** Appends to the right, conses out of the appends. *)
Ltac norm_app := repeat (rewrite <- app_assoc || rewrite <- app_comm_cons).

(** Taking a [sem] of a given pattern apart. *)
Ltac sem_inv :=
  repeat match goal with
  | H : Re.sem (Re.Plus _) _ _ _ _ |- _ => unfold Re.Plus in H
  | H : Re.sem (Re.Cat _ _) _ _ _ _ |- _ => inversion H; subst; clear H
  | H : Re.sem (Re.Grp _ _) _ _ _ _ |- _ => inversion H; subst; clear H
  | H : Re.sem (Re.Cls _) _ _ _ _ |- _ => inversion H; subst; clear H
  | H : Re.sem (Re.Lit _) _ _ _ _ |- _ => inversion H; subst; clear H
  | H : Re.sem (Re.Rep _ _) _ _ _ _ |- _ => inversion H; subst; clear H
  | H : Re.sem Re.Eps _ _ _ _ |- _ => inversion H; subst; clear H
  | H : Re.sem Re.Eol _ _ _ _ |- _ => inversion H; subst; clear H
  end.

(** ** Numbers *)

Section NumFacts.

Import Num.

Lemma int_app w1 w2 :
  int (w1 ++ w2) = fold_left (fun acc c => 10 * acc + digit_val c) w2 (int w1).
Proof. unfold int. apply fold_left_app. Qed.

Lemma int_snoc w d : int (w ++ [d]) = 10 * int w + digit_val d.
Proof. now rewrite int_app. Qed.

Lemma dec_loop_eq f n acc :
  dec_loop (S f) n acc =
  if n <? 10 then digit_chr (n mod 10) :: acc
  else dec_loop f (n / 10) (digit_chr (n mod 10) :: acc).
Proof. reflexivity. Qed.

Lemma dec_loop_spec fuel : forall n acc,
  n < fuel ->
  exists w, dec_loop fuel n acc = w ++ acc
            /\ Syntax.run Char.is_digit w = true /\ int w = n.
Proof.
  induction fuel as [|f IH]; intros n acc Hn; [lia|].
  rewrite dec_loop_eq.
  assert (Hd : n mod 10 < 10) by (apply Nat.mod_upper_bound; lia).
  destruct (n <? 10) eqn:E.
  - apply Nat.ltb_lt in E. exists [digit_chr (n mod 10)]. repeat split.
    + apply run_intro; [now apply digit_chr_digit | reflexivity].
    + change (int [digit_chr (n mod 10)]) with (10 * 0 + digit_val (digit_chr (n mod 10))).
      rewrite digit_val_chr by exact Hd.
      rewrite Nat.mod_small by exact E. lia.
  - apply Nat.ltb_ge in E.
    assert (Hq : n / 10 < f).
    { assert (n / 10 < n) by (apply Nat.div_lt; lia). lia. }
    destruct (IH (n / 10) (digit_chr (n mod 10) :: acc) Hq)
      as (w & -> & Hw & Hi).
    exists (w ++ [digit_chr (n mod 10)]). repeat split.
    + now rewrite <- app_assoc.
    + apply run_inv in Hw as (x & w' & -> & Hx & Hw').
      apply run_intro; [exact Hx|].
      apply forallb_app_iff. split; [exact Hw'|].
      cbn [forallb]. now rewrite digit_chr_digit by exact Hd.
    + rewrite int_snoc, Hi, digit_val_chr by exact Hd.
      pose proof (Nat.div_mod_eq n 10). lia.
Qed.

Lemma int_dec n : int (dec n) = n.
Proof.
  unfold dec. destruct (dec_loop_spec (S n) n [] (Nat.lt_succ_diag_r n))
    as (w & -> & _ & Hi).
  now rewrite app_nil_r.
Qed.

Lemma dec_digits n : Syntax.run Char.is_digit (dec n) = true.
Proof.
  unfold dec. destruct (dec_loop_spec (S n) n [] (Nat.lt_succ_diag_r n))
    as (w & -> & Hw & _).
  now rewrite app_nil_r.
Qed.

End NumFacts.

(** ** Declarations *)

Section DeclFacts.

Import Char Re Shader Syntax.

Lemma stops_app (p q : ascii -> bool) w r :
  (forall x, q x = true -> p x = false) ->
  forallb q w = true -> stops p r = true -> stops p (w ++ r) = true.
Proof.
  destruct w as [|x w]; simpl; auto.
  intros H. rewrite andb_true_iff. intros [Hx _] _. now rewrite (H _ Hx).
Qed.

Lemma match_intro r w rest c :
  (forall (k : str -> caps -> option Match) v,
      k rest c = Some v -> exec r k (w ++ rest) [] = Some v) ->
  match_ r (w ++ rest) = Some (mkMatch w c).
Proof.
  intros H. unfold match_. apply H. now rewrite consumed_app.
Qed.


Lemma exec_opt_skip {A} r (k : str -> caps -> option A) s c :
  exec r k s c = None -> exec (Opt r) k s c = k s c.
Proof. intros H. unfold Opt. cbn [exec]. now rewrite H. Qed.

Lemma consumed_app3 a b c rest :
  consumed (a ++ b ++ c ++ rest) rest = a ++ b ++ c.
Proof.
  replace (a ++ b ++ c ++ rest) with ((a ++ b ++ c) ++ rest)
    by now rewrite <- !app_assoc.
  apply consumed_app.
Qed.

Lemma spaces_space n : forallb is_space (spaces n) = true.
Proof. apply forallb_repeat. reflexivity. Qed.

Lemma spaces_not_word n :
  forallb (fun c => negb (is_word c)) (spaces n) = true.
Proof. apply forallb_repeat. reflexivity. Qed.

Lemma names_miss x t :
  negb (is_word x) = true -> match_ re_names (x :: t) = None.
Proof.
  intros H. apply negb_true_iff in H.
  unfold match_, re_names, Plus. cbn [exec]. now rewrite H.
Qed.





(** *** The loops *)


Lemma prepend_app a b r : prepend (a ++ b) r = prepend a (prepend b r).
Proof. destruct r; simpl; [now rewrite app_assoc|reflexivity]. Qed.

Lemma for_each_shift {M} (body : list entry -> M -> result (list entry)) :
  (forall acc m, body acc m = prepend acc (body [] m)) ->
  forall ms acc, for_each body acc ms = prepend acc (for_each body [] ms).
Proof.
  intros Hb. induction ms as [|m ms IH]; intros acc; simpl.
  - now rewrite app_nil_r.
  - rewrite (Hb acc m). destruct (body [] m) as [e|x]; simpl; [|reflexivity].
    rewrite (IH (acc ++ e)), (IH e). apply prepend_app.
Qed.

Lemma add_name_shift g acc m : add_name g acc m = prepend acc (add_name g [] m).
Proof.
  unfold add_name. destruct (group (groups m) 3) as [size|]; [|reflexivity].
  destruct (Num.int size =? 0); reflexivity.
Qed.

Lemma add_declaration_shift acc m :
  add_declaration acc m = prepend acc (add_declaration [] m).
Proof.
  unfold add_declaration.
  destruct (gtypes_getitem (group_str m 1)) as [g|x]; simpl; [|reflexivity].
  apply for_each_shift. apply add_name_shift.
Qed.






Lemma comment_miss x t : plain x = true -> match_ re_comment (x :: t) = None.
Proof.
  unfold plain. rewrite negb_true_iff, !orb_false_iff.
  intros [[H1 H2] H3].
  rewrite Ascii.eqb_sym in H1, H2, H3.
  unfold match_, re_comment. cbn [exec strip_prefix lit list_ascii_of_string].
  unfold dquote, squote. now rewrite H1, H2, H3.
Qed.

(** A match of the declaration pattern starts with white space, the
    qualifier and one more white-space character. *)
Lemma type_match_head kw s m :
  match_ (re_type kw) s = Some m ->
  exists ws sp t,
    s = ws ++ kw ++ sp :: t
    /\ forallb is_space ws = true /\ is_space sp = true.
Proof.
  intros H. apply match_sound in H as (rest & -> & H).
  destruct m as [t g]. cbn [text groups] in *. unfold re_type in H.
  inversion H; subst; clear H.
  match goal with H : sem (Rep _ _) _ _ _ _ |- _ => inversion H; subst; clear H end.
  match goal with H : sem (Cat _ _) _ _ _ _ |- _ => inversion H; subst; clear H end.
  match goal with H : sem (Lit _) _ _ _ _ |- _ => inversion H; subst; clear H end.
  match goal with H : sem (Cat _ _) _ _ _ _ |- _ => inversion H; subst; clear H end.
  match goal with H : sem (Plus _) _ _ _ _ |- _ => unfold Plus in H; inversion H; subst; clear H end.
  match goal with H : sem (Cls _) _ _ _ _ |- _ => inversion H; subst; clear H end.
  match goal with
  | Hw : forallb is_space ?ws = true, Hs : is_space ?sp = true
    |- context [(?ws ++ _ ++ ([?sp] ++ ?a) ++ ?b) ++ ?r] =>
      exists ws, sp, (a ++ b ++ r)
  end.
  repeat split; try assumption. norm_app. reflexivity.
Qed.

Lemma head_not_space x t ws u :
  is_word x = true -> forallb is_space ws = true ->
  x :: t = ws ++ u -> ws = [].
Proof.
  intros Hx Hw E. destruct ws as [|y ws]; [reflexivity|].
  injection E as <- _. simpl in Hw. apply andb_true_iff in Hw as [Hy _].
  rewrite (word_not_space _ Hx) in Hy. discriminate.
Qed.

Section Qualifier.
Variable kw : str.
Hypothesis Hkw : run is_word kw = true.





End Qualifier.
End DeclFacts.

(** ** Reading declarations from a source *)

Section Extraction.

Import Char Re Shader Syntax.



Lemma read_code kw self code :
  _code self = Some code ->
  read_declarations kw self = (declarations kw code, self).
Proof. unfold read_declarations. now intros ->. Qed.

End Extraction.

(** * The claims *)

Import Char Re Shader Syntax.

(** C9. [_create] on an object whose source was never set, or is the empty
    text, raises the error [No code has been given] without a single call
    to the graphics API, and the object is left as it was. *)
Theorem create_without_code (gl : driver) (self : shader) :
  _code self = None \/ _code self = Some [] ->
  _create gl self
  = mkOutcome (Raise (RuntimeError (lit "No code has been given"))) self [] [].
Proof.
  intros H. unfold _create, no_code. now destruct H as [-> | ->].
Qed.

Lemma create_without_code_witness :
  let gl := mkDriver (fun _ => 1%Z) (fun _ _ => 1%Z) (fun _ _ => []) in
  let self := mkShader GL_FRAGMENT_SHADER None None 0 1 true in
  (_code self = None \/ _code self = Some [])
  /\ _create gl self
     = mkOutcome (Raise (RuntimeError (lit "No code has been given"))) self [] [].
Proof.
  intros gl self. split; [left; reflexivity|].
  apply (create_without_code gl self). left. reflexivity.
Defined.

(** ** Driver diagnostics *)

Section Diagnostics.

Import Char Re Shader Syntax.

Lemma exec_cls {A} p (k : str -> caps -> option A) x s c :
  p x = true -> exec (Cls p) k (x :: s) c = k s c.
Proof. intros H. cbn [exec]. now rewrite H. Qed.

Lemma at_eol_stops rest : at_eol rest = true -> stops not_nl rest = true.
Proof.
  destruct rest as [|x rest]; [reflexivity|]. simpl. unfold not_nl.
  intros ->. reflexivity.
Qed.

Lemma exec_message {A} n (k : str -> caps -> option A) msg rest c v :
  forallb not_nl msg = true -> at_eol rest = true ->
  k rest ((n, msg) :: c) = Some v ->
  exec (Grp n (Rep true not_nl)) k (msg ++ rest) c = Some v.
Proof.
  intros Hm Hr Hk. rewrite exec_grp.
  apply exec_star; [exact Hm|now apply at_eol_stops|].
  now rewrite consumed_app.
Qed.

Lemma match_nvidia n l sp msg rest :
  run is_digit n = true -> run is_digit l = true -> is_space sp = true ->
  forallb not_nl msg = true -> at_eol rest = true ->
  match_ re_nvidia (n ++ lit "(" ++ l ++ lit "):" ++ sp :: msg ++ rest)
  = Some (mkMatch (n ++ lit "(" ++ l ++ lit "):" ++ sp :: msg)
                  [(3, msg); (2, l); (1, n)]).
Proof.
  intros Hn Hl Hsp Hm Hr.
  replace (n ++ lit "(" ++ l ++ lit "):" ++ sp :: msg ++ rest)
    with ((n ++ lit "(" ++ l ++ lit "):" ++ sp :: msg) ++ rest)
    by (norm_app; reflexivity).
  apply match_intro. intros k v Hk. norm_app.
  unfold re_nvidia. rewrite exec_cat.
  apply exec_grp_plus; [exact Hn|reflexivity|].
  rewrite exec_cat, exec_lit, exec_cat.
  apply exec_grp_plus; [exact Hl|reflexivity|].
  rewrite exec_cat, exec_lit, exec_cat.
  rewrite exec_cls by exact Hsp.
  now apply exec_message.
Qed.

Lemma match_ati sp0 s l sp msg rest :
  is_space sp0 = true ->
  run is_digit s = true -> run is_digit l = true -> is_space sp = true ->
  forallb not_nl msg = true -> at_eol rest = true ->
  match_ re_ati (lit "ERROR:" ++ sp0 :: s ++ lit ":" ++ l ++ lit ":"
                 ++ sp :: msg ++ rest)
  = Some (mkMatch (lit "ERROR:" ++ sp0 :: s ++ lit ":" ++ l ++ lit ":"
                   ++ sp :: msg)
                  [(3, msg); (2, l); (1, s)]).
Proof.
  intros Hsp0 Hs Hl Hsp Hm Hr.
  replace (lit "ERROR:" ++ sp0 :: s ++ lit ":" ++ l ++ lit ":" ++ sp :: msg ++ rest)
    with ((lit "ERROR:" ++ sp0 :: s ++ lit ":" ++ l ++ lit ":" ++ sp :: msg) ++ rest)
    by (norm_app; reflexivity).
  apply match_intro. intros k v Hk. norm_app.
  unfold re_ati. rewrite exec_cat, exec_lit, exec_cat.
  rewrite exec_cls by exact Hsp0.
  rewrite exec_cat.
  apply exec_grp_plus; [exact Hs|reflexivity|].
  rewrite exec_cat, exec_lit, exec_cat.
  apply exec_grp_plus; [exact Hl|reflexivity|].
  rewrite exec_cat, exec_lit, exec_cat.
  rewrite exec_cls by exact Hsp.
  now apply exec_message.
Qed.

Lemma match_nouveau s l col sp msg rest :
  run is_digit s = true -> run is_digit l = true -> run is_digit col = true ->
  is_space sp = true ->
  forallb not_nl msg = true -> at_eol rest = true ->
  match_ re_nouveau (s ++ lit ":" ++ l ++ lit "(" ++ col ++ lit "):"
                     ++ sp :: msg ++ rest)
  = Some (mkMatch (s ++ lit ":" ++ l ++ lit "(" ++ col ++ lit "):" ++ sp :: msg)
                  [(4, msg); (3, col); (2, l); (1, s)]).
Proof.
  intros Hs Hl Hc Hsp Hm Hr.
  replace (s ++ lit ":" ++ l ++ lit "(" ++ col ++ lit "):" ++ sp :: msg ++ rest)
    with ((s ++ lit ":" ++ l ++ lit "(" ++ col ++ lit "):" ++ sp :: msg) ++ rest)
    by (norm_app; reflexivity).
  apply match_intro. intros k v Hk. norm_app.
  unfold re_nouveau. rewrite exec_cat.
  apply exec_grp_plus; [exact Hs|reflexivity|].
  rewrite exec_cat, exec_lit, exec_cat.
  apply exec_grp_plus; [exact Hl|reflexivity|].
  rewrite exec_cat, exec_lit, exec_cat.
  apply exec_grp_plus; [exact Hc|reflexivity|].
  rewrite exec_cat, exec_lit, exec_cat.
  rewrite exec_cls by exact Hsp.
  now apply exec_message.
Qed.

Lemma nvidia_shape e m :
  match_ re_nvidia e = Some m ->
  exists n l sp w rest,
    e = n ++ lit "(" ++ l ++ lit "):" ++ sp :: w ++ rest
    /\ run is_digit n = true /\ run is_digit l = true /\ is_space sp = true.
Proof.
  intros H. apply match_sound in H as (rest & -> & H).
  destruct m as [t g]. cbn [text groups] in *. unfold re_nvidia in H. sem_inv.
  match goal with
  | |- context [(([?x] ++ ?a) ++ _ ++ ([?y] ++ ?b) ++ _ ++ [?sp] ++ ?w) ++ ?r] =>
      exists (x :: a), (y :: b), sp, w, r
  end.
  repeat split; try (apply run_intro; assumption); try assumption.
  norm_app. reflexivity.
Qed.

Lemma ati_shape e m :
  match_ re_ati e = Some m ->
  exists sp0 s l sp w rest,
    e = lit "ERROR:" ++ sp0 :: s ++ lit ":" ++ l ++ lit ":" ++ sp :: w ++ rest
    /\ is_space sp0 = true
    /\ run is_digit s = true /\ run is_digit l = true /\ is_space sp = true.
Proof.
  intros H. apply match_sound in H as (rest & -> & H).
  destruct m as [t g]. cbn [text groups] in *. unfold re_ati in H. sem_inv.
  match goal with
  | |- context [(_ ++ [?sp0] ++ ([?x] ++ ?a) ++ _ ++ ([?y] ++ ?b) ++ _
                 ++ [?sp] ++ ?w) ++ ?r] =>
      exists sp0, (x :: a), (y :: b), sp, w, r
  end.
  repeat split; try (apply run_intro; assumption); try assumption.
  norm_app. reflexivity.
Qed.

Lemma nouveau_shape e m :
  match_ re_nouveau e = Some m ->
  exists s l col sp w rest,
    e = s ++ lit ":" ++ l ++ lit "(" ++ col ++ lit "):" ++ sp :: w ++ rest
    /\ run is_digit s = true /\ run is_digit l = true
    /\ run is_digit col = true /\ is_space sp = true.
Proof.
  intros H. apply match_sound in H as (rest & -> & H).
  destruct m as [t g]. cbn [text groups] in *. unfold re_nouveau in H. sem_inv.
  match goal with
  | |- context [(([?x] ++ ?a) ++ _ ++ ([?y] ++ ?b) ++ _ ++ ([?z] ++ ?c) ++ _
                 ++ [?sp] ++ ?w) ++ ?r] =>
      exists (x :: a), (y :: b), (z :: c), sp, w, r
  end.
  repeat split; try (apply run_intro; assumption); try assumption.
  norm_app. reflexivity.
Qed.

Lemma message_split (t : str) :
  exists msg rest,
    t = msg ++ rest /\ forallb not_nl msg = true /\ at_eol rest = true.
Proof.
  destruct (span_exists not_nl t) as (msg & rest & -> & Hm & Hr).
  exists msg, rest. repeat split; [exact Hm|].
  destruct rest as [|x rest]; [reflexivity|].
  simpl in *. unfold not_nl in Hr. now rewrite negb_involutive in Hr.
Qed.

(** Each format is read as the specification says. *)
Lemma parse_error_complete e L m :
  diagnostic e L m -> _parse_error e = Ok (L, m).
Proof.
  intros H. unfold _parse_error. destruct H.
  - rewrite match_nvidia by assumption. reflexivity.
  - change (match_ re_nvidia (lit "ERROR:" ++ sp0 :: s ++ lit ":" ++ l ++ lit ":"
                              ++ sp :: msg ++ rest)) with (@None Match).
    rewrite match_ati by assumption. reflexivity.
  - destruct (match_ re_nvidia _) as [m1|] eqn:E1.
    { exfalso. apply nvidia_shape in E1
        as (n' & l' & sp' & w' & rest' & E & Hn' & _).
      apply span_unique with (p := is_digit) in E as [_ E];
        [discriminate| | | |]; try reflexivity; now apply run_forallb. }
    replace (match_ re_ati _) with (@None Match).
    + rewrite match_nouveau by assumption. reflexivity.
    + apply run_inv in H as (x & s' & -> & Hx & _).
      unfold match_, re_ati. cbn [exec strip_prefix lit list_ascii_of_string app].
      now rewrite (eqb_false_of_class is_digit "E"%char x).
Qed.

Lemma parse_error_matched e :
  (exists m, match_ re_nvidia e = Some m) \/ (exists m, match_ re_ati e = Some m)
  \/ (exists m, match_ re_nouveau e = Some m) ->
  exists L msg, diagnostic e L msg.
Proof.
  intros [[m H]|[[m H]|[m H]]].
  - apply nvidia_shape in H as (n & l & sp & w & rest & -> & Hn & Hl & Hsp).
    destruct (message_split (w ++ rest)) as (msg & rest' & -> & Hm & Hr).
    exists (Num.int l), msg. now constructor.
  - apply ati_shape in H as (sp0 & s & l & sp & w & rest & -> & H0 & Hs & Hl & Hsp).
    destruct (message_split (w ++ rest)) as (msg & rest' & -> & Hm & Hr).
    exists (Num.int l), msg. now constructor.
  - apply nouveau_shape in H
      as (s & l & col & sp & w & rest & -> & Hs & Hl & Hc & Hsp).
    destruct (message_split (w ++ rest)) as (msg & rest' & -> & Hm & Hr).
    exists (Num.int l), msg. now constructor.
Qed.

Lemma parse_error_cases e :
  (exists L msg, diagnostic e L msg)
  \/ _parse_error e = Raise (ValueError (lit "Unknown GLSL error format")).
Proof.
  unfold _parse_error.
  destruct (match_ re_nvidia e) as [m1|] eqn:E1;
    [left; apply parse_error_matched; eauto|].
  destruct (match_ re_ati e) as [m2|] eqn:E2;
    [left; apply parse_error_matched; eauto|].
  destruct (match_ re_nouveau e) as [m3|] eqn:E3;
    [left; apply parse_error_matched; eauto|].
  now right.
Qed.

End Diagnostics.

(** C4. [_parse_error] returns the line number [L] and the message of a
    diagnostic exactly when the text has one of the three formats
    [N(L): message], [ERROR: S:L: message], [S:L(C): message] (tried in
    this order; no text has two of the formats), and when the text has
    none of them it raises the error [Unknown GLSL error format]. *)
Theorem parse_error_formats (e : str) :
  (forall L m, diagnostic e L m <-> _parse_error e = Ok (L, m))
  /\ ((forall L m, ~ diagnostic e L m) ->
      _parse_error e = Raise (ValueError (lit "Unknown GLSL error format"))).
Proof.
  split.
  - intros L m. split; [apply parse_error_complete|].
    intros H. destruct (parse_error_cases e) as [(L' & m' & D)|R].
    + pose proof (parse_error_complete _ _ _ D) as H'.
      rewrite H in H'. injection H' as -> ->. exact D.
    + rewrite H in R. discriminate.
  - intros Hn. destruct (parse_error_cases e) as [(L & m & D)|R];
      [destruct (Hn _ _ D)|exact R].
Qed.

Lemma parse_error_formats_witness :
  _parse_error (lit "0(7): error C1008: undefined variable")
  = Ok (7, lit "error C1008: undefined variable")
  /\ _parse_error (lit "ERROR: 0:131: syntax error") = Ok (131, lit "syntax error")
  /\ _parse_error (lit "0:28(16): error: syntax error")
     = Ok (28, lit "error: syntax error")
  /\ (forall L m, ~ diagnostic (lit "warning") L m)
  /\ _parse_error (lit "warning")
     = Raise (ValueError (lit "Unknown GLSL error format")).
Proof.
  assert (Hno : forall L m, ~ diagnostic (lit "warning") L m).
  { intros L m D.
    apply (proj1 (proj1 (parse_error_formats (lit "warning")) L m)) in D.
    discriminate D. }
  split; [|split; [|split; [|split]]].
  - apply (proj1 (parse_error_formats _) _ _).
    exact (Nvidia (lit "0") (lit "7") " "%char
             (lit "error C1008: undefined variable") []
             eq_refl eq_refl eq_refl eq_refl eq_refl).
  - apply (proj1 (parse_error_formats _) _ _).
    exact (Ati " "%char (lit "0") (lit "131") " "%char (lit "syntax error") []
             eq_refl eq_refl eq_refl eq_refl eq_refl eq_refl).
  - apply (proj1 (parse_error_formats _) _ _).
    exact (Nouveau (lit "0") (lit "28") (lit "16") " "%char
             (lit "error: syntax error") []
             eq_refl eq_refl eq_refl eq_refl eq_refl eq_refl).
  - exact Hno.
  - exact (proj2 (parse_error_formats (lit "warning")) Hno).
Defined.

(** ** Comments *)

Section Comments.

Import Char Re Shader Syntax.

Lemma match_text_prefix r s m :
  match_ r s = Some m -> text m = firstn (length (text m)) s.
Proof.
  intros H. apply match_sound in H as (rest & -> & _).
  now rewrite firstn_app, firstn_all, Nat.sub_diag, app_nil_r.
Qed.

Lemma match_text_length r s m :
  match_ r s = Some m -> length (text m) <= length s.
Proof.
  intros H. apply match_sound in H as (rest & -> & _).
  rewrite length_app. lia.
Qed.

(** The pieces of a scan, put together again, are the text. *)
Lemma scan_whole r : forall s n,
  n <= length s ->
  concat (map snd (map piece_of (scan r n s))) = skipn n s.
Proof.
  induction s as [|x s IH]; intros n Hn.
  - simpl in Hn. replace n with 0 by lia. simpl.
    destruct (match_ r []) as [m|] eqn:E; [|reflexivity].
    simpl. rewrite (match_text_prefix _ _ _ E). now rewrite firstn_nil.
  - destruct n as [|n].
    + cbn [scan skipn].
      destruct (match_ r (x :: s)) as [m|] eqn:E.
      * pose proof (match_text_prefix _ _ _ E) as Ht.
        pose proof (match_text_length _ _ _ E) as Hl.
        destruct (length (text m)) as [|k] eqn:El.
        -- cbn [map concat piece_of snd]. rewrite (IH 0) by lia.
           apply length_zero_iff_nil in El. rewrite El. reflexivity.
        -- cbn [map concat piece_of snd]. simpl in Hl.
           rewrite (IH k) by lia. rewrite Ht.
           apply (firstn_skipn (S k) (x :: s)).
      * cbn [map concat piece_of snd]. rewrite (IH 0) by lia. reflexivity.
    + cbn [scan skipn]. simpl in Hn. apply IH. lia.
Qed.

Lemma scan_hits_matched r : forall s n m,
  In (Hit m) (scan r n s) -> exists s', match_ r s' = Some m.
Proof.
  induction s as [|x s IH]; intros n m.
  - destruct n; simpl; [|tauto].
    destruct (match_ r []) as [m'|] eqn:E; simpl; [|tauto].
    intros [[= <-]|[]]. eauto.
  - destruct n as [|n]; cbn [scan]; [|apply IH].
    destruct (match_ r (x :: s)) as [m'|] eqn:E.
    + destruct (length (text m')); simpl.
      * intros [[= <-]|[[=]|H]]; eauto.
      * intros [[= <-]|H]; eauto.
    + simpl. intros [[=]|H]; eauto.
Qed.

(** A match of the comment pattern is a quoted run, kept as it is, or a
    comment. *)
Lemma comment_hit s m :
  match_ re_comment s = Some m ->
  (groups m = [(1, text m)])
  \/ (groups m = [(2, text m)]
      /\ ((exists body, text m = lit "//" ++ body
                        /\ forallb not_crlf body = true)
          \/ (exists body, text m = lit "/*" ++ body ++ lit "*/"))).
Proof.
  intros H. apply match_sound in H as (rest & _ & H).
  destruct m as [t g]. cbn [text groups] in *. unfold re_comment in H.
  inversion H; subst; clear H.
  - left.
    match goal with H : sem (Grp _ _) _ _ _ _ |- _ => inversion H; subst; clear H end.
    match goal with H : sem (Alt _ _) _ _ _ _ |- _ => inversion H; subst; clear H end;
      sem_inv; reflexivity.
  - right.
    match goal with H : sem (Grp _ _) _ _ _ _ |- _ => inversion H; subst; clear H end.
    match goal with H : sem (Alt _ _) _ _ _ _ |- _ => inversion H; subst; clear H end;
      sem_inv; (split; [reflexivity|]).
    + right. match goal with |- context [_ ++ ?w ++ _] => exists w end.
      reflexivity.
    + left. match goal with |- context [_ ++ ?w ++ _] => exists w end.
      split; [now rewrite app_nil_r|assumption].
Qed.

Lemma newlines_app a b : newlines (a ++ b) = newlines a + newlines b.
Proof. unfold newlines. now rewrite filter_app, length_app. Qed.

Lemma pieces_lines (ps : list piece) :
  newlines (whole ps) = newlines (kept ps) + newlines (dropped ps).
Proof.
  unfold whole, kept, dropped.
  induction ps as [|[b w] ps IH]; [reflexivity|].
  cbn [map concat filter fst snd]. rewrite newlines_app, IH.
  destruct b; cbn [negb map concat snd]; rewrite newlines_app; lia.
Qed.

Lemma not_crlf_no_newline w : forallb not_crlf w = true -> newlines w = 0.
Proof.
  unfold newlines. induction w as [|x w IH]; [reflexivity|].
  cbn [forallb filter]. rewrite andb_true_iff. intros [Hx Hw].
  unfold not_crlf in Hx. apply andb_true_iff in Hx as [_ Hx].
  apply negb_true_iff in Hx. unfold is_nl. rewrite Hx. auto.
Qed.

Lemma sub_kept : forall items,
  (forall m, In (Hit m) items -> exists s', match_ re_comment s' = Some m) ->
  flat_map (fun i => match i with Keep x => [x] | Hit m => do_replace m end) items
  = kept (map piece_of items).
Proof.
  unfold kept. induction items as [|i items IH]; intros Hm; [reflexivity|].
  cbn [flat_map map]. rewrite IH by (intros m H; apply Hm; now right).
  destruct i as [x|m]; [reflexivity|].
  destruct (Hm m (or_introl eq_refl)) as (s' & E).
  unfold piece_of, do_replace, group_str.
  destruct (comment_hit _ _ E) as [-> | [-> _]]; reflexivity.
Qed.
End Comments.

(** C3, as the code has it.  The comment pattern cuts the source into
    pieces: single characters and quoted runs, which are kept, and
    comments, which are dropped.  The pieces in order make up the source
    and the kept ones in order make up the result, so every character
    outside a comment is there unchanged and in order.  A piece starts, in
    the source, as many lines further down than in the result as there are
    newlines inside the comments dropped before it; a dropped piece is a
    line comment, which holds no newline, or a block comment. *)
Theorem remove_comments_pieces (s : str) :
  whole (pieces s) = s
  /\ _remove_comments s = kept (pieces s)
  /\ (forall before p after,
        pieces s = before ++ p :: after ->
        newlines (whole before)
        = newlines (kept before) + newlines (dropped before))
  /\ (forall p,
        In p (pieces s) -> fst p = false ->
        (exists body, snd p = lit "//" ++ body /\ newlines (snd p) = 0)
        \/ (exists body, snd p = lit "/*" ++ body ++ lit "*/")).
Proof.
  split; [|split; [|split]].
  - unfold whole, pieces. now rewrite scan_whole by lia.
  - unfold _remove_comments, sub, pieces. apply sub_kept.
    intros m H. eapply scan_hits_matched, H.
  - intros before p after _. apply pieces_lines.
  - intros p Hin Hp. unfold pieces in Hin.
    apply in_map_iff in Hin as (i & <- & Hi).
    destruct i as [x|m]; [discriminate|].
    apply scan_hits_matched in Hi as (s' & E).
    cbn [piece_of fst snd] in *.
    destruct (comment_hit _ _ E) as [G | [_ [(body & Ht & Hb) | (body & Ht)]]].
    + rewrite G in Hp. discriminate.
    + left. exists body. split; [exact Ht|].
      rewrite Ht, newlines_app. now rewrite (not_crlf_no_newline _ Hb).
    + right. eauto.
Qed.

(** C3 as stated fails: a block comment over two lines is dropped with its
    newline, and the line [b], fourth in the source, is third in the
    result. *)
Lemma block_comment_shifts_lines :
  let s := lit "a" ++ [nl] ++ lit "/* x" ++ [nl] ++ lit "y */" ++ [nl] ++ lit "b" in
  _remove_comments s = lit "a" ++ [nl] ++ [nl] ++ lit "b"
  /\ split_lines s = [lit "a"; lit "/* x"; lit "y */"; lit "b"]
  /\ split_lines (_remove_comments s) = [lit "a"; []; lit "b"]
  /\ nth 3 (split_lines s) [] = lit "b"
  /\ nth 3 (split_lines (_remove_comments s)) [] <> lit "b".
Proof. repeat split. discriminate. Qed.

(** ** The error display *)

Section Display.

Import Char Re Shader Syntax.
Local Open Scope Z_scope.

Lemma print_lines_window start lineno : forall ls k,
  flat_map (print_line start lineno) (combine (seq k (length ls)) ls)
  = window lineno (Z.of_nat k + start) ls.
Proof.
  induction ls as [|line ls IH]; intros k; [reflexivity|].
  cbn [length seq combine flat_map window print_line].
  rewrite (IH (S k)).
  replace (Z.of_nat (S k) + start) with (Z.of_nat k + start + 1) by lia.
  f_equal.
  destruct (Z.of_nat k + start =? lineno); [reflexivity|].
  destruct line; reflexivity.
Qed.

Lemma window_spec lineno : forall ls a out,
  In out (window lineno a ls) <->
  exists j, (j < length ls)%nat
            /\ (a + Z.of_nat j = lineno \/ nth j ls [] <> [])
            /\ out = numbered (a + Z.of_nat j) (nth j ls []).
Proof.
  induction ls as [|line ls IH]; intros a out; cbn [window].
  - split; [intros []|]. intros (j & Hj & _). simpl in Hj. lia.
  - rewrite in_app_iff, IH. split.
    + intros [H | (j & Hj & Hc & ->)].
      * destruct (a =? lineno) eqn:E; cbn [orb] in H.
        -- destruct H as [<-|[]]. exists 0%nat. cbn [nth length].
           rewrite Z.add_0_r. repeat split; [lia|]. left. lia.
        -- destruct line as [|x line]; cbn [nonempty] in H; [destruct H|].
           destruct H as [<-|[]]. exists 0%nat. cbn [nth length].
           rewrite Z.add_0_r. repeat split; [lia|]. right. discriminate.
      * exists (S j). cbn [nth length].
        replace (a + Z.of_nat (S j)) with (a + 1 + Z.of_nat j) by lia.
        repeat split; [lia|exact Hc].
    + intros (j & Hj & Hc & ->). destruct j as [|j].
      * left. cbn [nth] in *. rewrite Z.add_0_r in *.
        destruct Hc as [Hc|Hc].
        -- apply Z.eqb_eq in Hc. rewrite Hc. now left.
        -- destruct line as [|x line]; [congruence|].
           rewrite orb_true_r. now left.
      * right. exists j. cbn [nth length] in *.
        replace (a + 1 + Z.of_nat j) with (a + Z.of_nat (S j)) by lia.
        repeat split; [lia|exact Hc].
Qed.

Lemma print_error_slice (ls : list str) (lineno : Z) :
  -3 <= lineno ->
  slice ls (Z.max 0 (lineno - 3)) (Z.min (Z.of_nat (length ls)) (lineno + 3))
  = firstn (Z.to_nat (Z.min (Z.of_nat (length ls)) (lineno + 3))
            - Z.to_nat (Z.max 0 (lineno - 3)))
           (skipn (Z.to_nat (Z.max 0 (lineno - 3))) ls).
Proof.
  intros H. unfold slice, slice_index.
  destruct (Z.max 0 (lineno - 3) <? 0) eqn:E1; [lia|].
  destruct (Z.min (Z.of_nat (length ls)) (lineno + 3) <? 0) eqn:E2;
    [apply Z.ltb_lt in E2; lia|].
  destruct (Z_le_gt_dec (Z.max 0 (lineno - 3)) (Z.of_nat (length ls))) as [Hle|Hgt].
  - f_equal; [lia|]. f_equal. lia.
  - rewrite !skipn_all2 by lia. now rewrite !firstn_nil.
Qed.

Lemma int_zeros k w :
  Num.int (repeat "0"%char k ++ w) = Num.int w.
Proof.
  induction k as [|k IH]; [reflexivity|].
  rewrite <- IH. unfold Num.int. reflexivity.
Qed.

(** ['%03d'] of a line number: the decimal digits after as many zeros as
    make three characters. *)
Lemma dec03_nat (i : nat) :
  Num.dec03 (Z.of_nat i)
  = repeat "0"%char (3 - length (Num.dec i)) ++ Num.dec i.
Proof.
  unfold Num.dec03. destruct (Z.ltb_spec (Z.of_nat i) 0) as [Hneg|_]; [lia|].
  rewrite Zabs2Nat.id. cbn [app length]. now rewrite Nat.sub_0_r.
Qed.

End Display.

(** C7, as the code has it.  For an offending line number of -3 or more
    (the creation step passes the line of the diagnostic less 1),
    [_print_error] prints the heading, then the lines of the source from
    3 lines before the offending line, or from the first line, up to no
    more than 3 lines after it, or to the last line, then an empty line;
    no line at all when the source ends more than 3 lines earlier.
    Every line shown has the same layout: its zero-based number, filled
    with zeros on the left to at least three digits, and its text.  An
    empty line is left out unless it is the offending one, which, when it
    lies in the source, is always shown and is marked in no other way.
    [ ...] comes before the window exactly when it does not start at the
    first line and after it exactly when it ends before the last one. *)
Theorem print_error_window (repr code error : str) (lineno : Z) :
  let lines := split_lines code in
  let len := Z.of_nat (length lines) in
  let a := Z.to_nat (Z.max 0 (lineno - 3)) in
  let b := Z.to_nat (Z.min len (lineno + 3)) in
  let shown := window lineno (Z.of_nat a) (firstn (b - a) (skipn a lines)) in
  (-3 <= lineno)%Z ->
  _print_error repr code error lineno
  = [lit "Error in " ++ repr; lit " -> " ++ error; []]
    ++ (if (0 <? Z.of_nat a)%Z then [lit " ..."] else [])
    ++ shown
    ++ (if (Z.of_nat b <? len)%Z then [lit " ..."] else [])
    ++ [[]]
  /\ (forall out,
        In out shown <->
        exists i, a <= i < b
                  /\ (Z.of_nat i = lineno \/ nth i lines [] <> [])
                  /\ out = numbered (Z.of_nat i) (nth i lines []))
  /\ (forall i, a <= i < b ->
        i < length lines /\ (lineno - 3 <= Z.of_nat i < lineno + 3)%Z)
  /\ ((0 <= lineno < len)%Z ->
      a <= Z.to_nat lineno < b
      /\ In (numbered lineno (nth (Z.to_nat lineno) lines [])) shown)
  /\ (forall (i : nat) (line : str),
        numbered (Z.of_nat i) line
        = lit " " ++ repeat "0"%char (3 - length (Num.dec i)) ++ Num.dec i
          ++ lit " " ++ line
        /\ 3 <= length (Num.dec03 (Z.of_nat i))
        /\ Num.int (Num.dec03 (Z.of_nat i)) = i).
Proof.
  intros lines len a b shown H.
  assert (Hb : b <= length lines) by (subst b len; lia).
  assert (Hnth : forall j, j < b - a ->
            nth j (firstn (b - a) (skipn a lines)) [] = nth (a + j) lines []).
  { intros j Hj. rewrite nth_firstn, nth_skipn.
    destruct (j <? b - a) eqn:E; [reflexivity|].
    apply Nat.ltb_ge in E. lia. }
  assert (Hlen : length (firstn (b - a) (skipn a lines)) = b - a).
  { rewrite firstn_length_le; [reflexivity|]. rewrite length_skipn. lia. }
  assert (Hshown : forall out,
            In out shown <->
            exists i, a <= i < b
                      /\ (Z.of_nat i = lineno \/ nth i lines [] <> [])
                      /\ out = numbered (Z.of_nat i) (nth i lines [])).
  { intros out. subst shown. rewrite window_spec, Hlen. split.
    - intros (j & Hj & Hc & ->). exists (a + j). rewrite Hnth in * by lia.
      replace (Z.of_nat (a + j)) with (Z.of_nat a + Z.of_nat j)%Z by lia.
      repeat split; [lia|lia|exact Hc].
    - intros (i & Hi & Hc & ->). exists (i - a). rewrite Hnth by lia.
      replace (a + (i - a)) with i by lia.
      replace (Z.of_nat a + Z.of_nat (i - a))%Z with (Z.of_nat i) by lia.
      repeat split; [lia|exact Hc]. }
  split; [|split; [exact Hshown|split; [|split]]].
  - unfold _print_error. fold lines. fold len.
    rewrite print_error_slice by exact H. fold len. fold a. fold b.
    unfold enumerate. rewrite print_lines_window.
    replace (Z.of_nat 0 + Z.max 0 (lineno - 3))%Z with (Z.of_nat a)
      by (subst a; lia).
    replace (Z.min len (lineno + 3)) with (Z.of_nat b) by (subst b len; lia).
    replace (Z.max 0 (lineno - 3)) with (Z.of_nat a) by (subst a; lia).
    reflexivity.
  - intros i Hi. subst a b len. lia.
  - intros Hin. assert (Hab : a <= Z.to_nat lineno < b) by (subst a b len; lia).
    split; [exact Hab|]. apply Hshown. exists (Z.to_nat lineno).
    replace (Z.of_nat (Z.to_nat lineno)) with lineno by lia.
    repeat split; [lia|lia|now left].
  - intros i line. unfold numbered. rewrite dec03_nat, <- !app_assoc.
    split; [reflexivity|]. split.
    + rewrite length_app, repeat_length. lia.
    + rewrite int_zeros. apply int_dec.
Qed.

Lemma print_error_window_witness :
  let code := lit "l0" ++ [nl] ++ lit "l1" ++ [nl] ++ lit "l2" ++ [nl]
              ++ lit "l3" ++ [nl] ++ lit "l4" ++ [nl] ++ lit "l5" ++ [nl]
              ++ lit "l6" ++ [nl] ++ lit "l7" in
  (-3 <= 4)%Z /\ (-3 <= -1)%Z
  /\ _print_error (lit "R") code (lit "m") 4
     = [lit "Error in R"; lit " -> m"; []; lit " ...";
        lit " 001 l1"; lit " 002 l2"; lit " 003 l3"; lit " 004 l4";
        lit " 005 l5"; lit " 006 l6"; lit " ..."; []]
  /\ _print_error (lit "R") code (lit "m") (-1)
     = [lit "Error in R"; lit " -> m"; [];
        lit " 000 l0"; lit " 001 l1"; lit " ..."; []].
Proof.
  intros code.
  assert (H4 : (-3 <= 4)%Z) by (vm_compute; discriminate).
  assert (H1 : (-3 <= -1)%Z) by (vm_compute; discriminate).
  split; [exact H4|]. split; [exact H1|]. split.
  - exact (proj1 (print_error_window (lit "R") code (lit "m") 4 H4)).
  - exact (proj1 (print_error_window (lit "R") code (lit "m") (-1) H1)).
Defined.

(** C7 as stated fails.  With ten lines and the offending line 3, line 6,
    the third after it, is not shown; and for a source of two lines the
    display is the same whether the offending line is the first or the
    second, so the offending line is not told apart. *)
Lemma print_error_counterexample :
  let code := lit "l0" ++ [nl] ++ lit "l1" ++ [nl] ++ lit "l2" ++ [nl]
              ++ lit "l3" ++ [nl] ++ lit "l4" ++ [nl] ++ lit "l5" ++ [nl]
              ++ lit "l6" ++ [nl] ++ lit "l7" ++ [nl] ++ lit "l8" ++ [nl]
              ++ lit "l9" in
  _print_error (lit "R") code (lit "m") 3
  = [lit "Error in R"; lit " -> m"; [];
     lit " 000 l0"; lit " 001 l1"; lit " 002 l2"; lit " 003 l3";
     lit " 004 l4"; lit " 005 l5"; lit " ..."; []]
  /\ _print_error (lit "R") (lit "a" ++ [nl] ++ lit "b") (lit "m") 0
     = _print_error (lit "R") (lit "a" ++ [nl] ++ lit "b") (lit "m") 1.
Proof. split; reflexivity. Qed.

(** ** Stripping comments *)

Section Stripping.

Import Char Re Shader Syntax Lifecycle.

Lemma rep_lazy_skip {A} p (k1 : str -> option A) (q : ascii -> bool) body rest :
  (forall x t, q x = true -> k1 (x :: t) = None) ->
  forallb q body = true -> forallb p body = true ->
  rep_lazy p k1 (body ++ rest) = rep_lazy p k1 rest.
Proof.
  intros Hk. induction body as [|x body IH]; [reflexivity|].
  cbn [forallb]. rewrite !andb_true_iff. intros [Hq Hqs] [Hp Hps].
  cbn [app rep_lazy]. rewrite (Hk x _ Hq), Hp. cbn [orelse]. now apply IH.
Qed.

Lemma rep_lazy_here {A} p (k1 : str -> option A) s v :
  k1 s = Some v -> rep_lazy p k1 s = Some v.
Proof. intros H. destruct s; cbn [rep_lazy]; now rewrite H. Qed.

Lemma exec_alt_left {A} r1 r2 (k : str -> caps -> option A) s c v :
  exec r1 k s c = Some v -> exec (Alt r1 r2) k s c = Some v.
Proof. intros H. cbn [exec]. now rewrite H. Qed.

Lemma exec_alt_right {A} r1 r2 (k : str -> caps -> option A) s c :
  exec r1 k s c = None -> exec (Alt r1 r2) k s c = exec r2 k s c.
Proof. intros H. cbn [exec]. now rewrite H. Qed.

Lemma any_all w : forallb any w = true.
Proof. induction w; [reflexivity|assumption]. Qed.

Lemma sub_hit f r w rest c :
  match_ r (w ++ rest) = Some (mkMatch w c) -> w <> [] ->
  sub f r (w ++ rest) = f (mkMatch w c) ++ sub f r rest.
Proof.
  intros H Hw. unfold sub. now rewrite (scan_hit _ _ _ _ H Hw).
Qed.

(** A quoted run, up to the next quote of its kind, is matched whole by
    group 1. *)
Lemma match_quoted q body rest :
  q = dquote \/ q = squote ->
  forallb (fun x => negb (Ascii.eqb q x)) body = true ->
  match_ re_comment ((q :: body ++ [q]) ++ rest)
  = Some (mkMatch (q :: body ++ [q]) [(1, q :: body ++ [q])]).
Proof.
  intros Hq Hb. apply match_intro. intros k v Hk.
  assert (Hlazy : forall c (k2 : str -> caps -> option Match),
             k2 rest c = Some v ->
             exec (Rep false any ;; Lit [q])%re k2 (body ++ [q] ++ rest) c
             = Some v).
  { intros c k2 H2. rewrite exec_cat. cbn [exec].
    rewrite rep_lazy_skip with (q := fun x => negb (Ascii.eqb q x));
      [|intros x t Hx; apply negb_true_iff in Hx; cbn [exec strip_prefix];
        now rewrite Hx|exact Hb|apply any_all].
    apply rep_lazy_here. cbn [exec strip_prefix app].
    now rewrite Ascii.eqb_refl. }
  replace ((q :: body ++ [q]) ++ rest) with ([q] ++ body ++ [q] ++ rest)
    by (simpl; now rewrite <- app_assoc).
  unfold re_comment.
  apply exec_alt_left. rewrite exec_grp.
  destruct Hq as [-> | ->].
  - apply exec_alt_left. rewrite exec_cat, exec_lit. apply Hlazy.
    rewrite consumed_app3. exact Hk.
  - rewrite exec_alt_right by reflexivity.
    rewrite exec_cat, exec_lit. apply Hlazy.
    rewrite consumed_app3. exact Hk.
Qed.

(** A block comment whose body holds no star is matched whole by
    group 2. *)
Lemma match_block body rest :
  forallb (fun x => negb (Ascii.eqb "*"%char x)) body = true ->
  match_ re_comment ((lit "/*" ++ body ++ lit "*/") ++ rest)
  = Some (mkMatch (lit "/*" ++ body ++ lit "*/")
                  [(2, lit "/*" ++ body ++ lit "*/")]).
Proof.
  intros Hb. apply match_intro. intros k v Hk.
  replace ((lit "/*" ++ body ++ lit "*/") ++ rest)
    with (lit "/*" ++ body ++ lit "*/" ++ rest) by (now rewrite <- !app_assoc).
  unfold re_comment.
  rewrite exec_alt_right by reflexivity.
  rewrite exec_grp. apply exec_alt_left.
  rewrite exec_cat, exec_lit, exec_cat. cbn [exec].
  rewrite rep_lazy_skip with (q := fun x => negb (Ascii.eqb "*"%char x));
    [|intros x t Hx; apply negb_true_iff in Hx;
      cbn [strip_prefix lit list_ascii_of_string]; now rewrite Hx
     |exact Hb|apply any_all].
  apply rep_lazy_here. rewrite strip_prefix_app.
  rewrite consumed_app3. exact Hk.
Qed.

Lemma close_miss {A} (k : str -> caps -> option A) a body rest c :
  no_close (a :: body) = true ->
  exec (Lit (lit "*/")) k (a :: body ++ lit "*/" ++ rest) c = None.
Proof.
  cbn [no_close]. rewrite andb_true_iff, negb_true_iff. intros [H _].
  cbn [exec strip_prefix lit list_ascii_of_string].
  rewrite Ascii.eqb_sym. destruct (Ascii.eqb a "*"%char); [|reflexivity].
  destruct body as [|b body]; [reflexivity|].
  cbn [app]. rewrite Ascii.eqb_sym. simpl in H. now rewrite H.
Qed.

Lemma no_close_skip {A} (k : str -> caps -> option A) body rest c v :
  no_close body = true -> k rest c = Some v ->
  rep_lazy any (fun s' => exec (Lit (lit "*/")) k s' c)
           (body ++ lit "*/" ++ rest)
  = Some v.
Proof.
  intros H Hk. induction body as [|a body IH].
  - cbn [app]. apply rep_lazy_here. cbv beta. now rewrite exec_lit.
  - cbn [app rep_lazy]. rewrite (close_miss k a body rest c H).
    cbn [orelse any]. apply IH.
    cbn [no_close] in H. now apply andb_true_iff in H as [_ H].
Qed.

(** A block comment, from its [/*] to the first [*/] after it, is matched
    whole by group 2. *)
Lemma match_block_comment body rest :
  no_close body = true ->
  match_ re_comment ((lit "/*" ++ body ++ lit "*/") ++ rest)
  = Some (mkMatch (lit "/*" ++ body ++ lit "*/")
                  [(2, lit "/*" ++ body ++ lit "*/")]).
Proof.
  intros Hb. apply match_intro. intros k v Hk.
  replace ((lit "/*" ++ body ++ lit "*/") ++ rest)
    with (lit "/*" ++ body ++ lit "*/" ++ rest) by (now rewrite <- !app_assoc).
  unfold re_comment.
  rewrite exec_alt_right by reflexivity.
  rewrite exec_grp. apply exec_alt_left.
  rewrite exec_cat, exec_lit, exec_cat.
  change (exec (Rep false any) ?k0 ?s0 ?c0)
    with (rep_lazy any (fun s' => k0 s' c0) s0).
  apply no_close_skip; [exact Hb|].
  rewrite consumed_app3. exact Hk.
Qed.

(** A line comment that runs up to a newline, or to the end of the text,
    is matched by group 2, the newline left out. *)
Lemma match_line body rest :
  forallb not_crlf body = true -> at_eol rest = true ->
  match_ re_comment ((lit "//" ++ body) ++ rest)
  = Some (mkMatch (lit "//" ++ body) [(2, lit "//" ++ body)]).
Proof.
  intros Hb Hr. apply match_intro. intros k v Hk.
  rewrite <- app_assoc. unfold re_comment.
  rewrite exec_alt_right by reflexivity.
  rewrite exec_grp, exec_alt_right by reflexivity.
  rewrite exec_cat, exec_lit, exec_cat.
  apply exec_star; [exact Hb| |].
  { destruct rest as [|x rest]; [reflexivity|]. simpl in *.
    unfold is_nl in Hr. apply Ascii.eqb_eq in Hr. now subst. }
  cbn [exec]. rewrite Hr.
  replace (lit "//" ++ body ++ rest) with ((lit "//" ++ body) ++ rest)
    by (now rewrite <- app_assoc).
  rewrite consumed_app. exact Hk.
Qed.

(** A line comment that runs up to a carriage return is not matched:
    [$] does not hold before a carriage return. *)
Lemma match_line_cr body rest :
  forallb not_crlf body = true ->
  match_ re_comment (lit "//" ++ body ++ cr :: rest) = None.
Proof.
  intros Hb. destruct (match_ re_comment _) as [m|] eqn:E; [|reflexivity].
  exfalso. apply match_sound in E as (rest' & E & H).
  destruct m as [t g]. cbn [text groups] in *. unfold re_comment in H.
  inversion H; subst; clear H;
    match goal with H : sem (Grp _ _) _ _ _ _ |- _ => inversion H; subst; clear H end;
    match goal with H : sem (Alt _ _) _ _ _ _ |- _ => inversion H; subst; clear H end;
    sem_inv; try discriminate.
  rewrite app_nil_r in E. rewrite <- app_assoc in E.
  apply app_inv_head in E.
  apply span_unique with (p := not_crlf) in E as [_ <-];
    [discriminate|assumption|assumption|reflexivity|].
  match goal with H : at_eol ?r = true |- _ =>
    destruct r as [|x r]; [reflexivity|]; simpl in *;
    unfold is_nl in H; apply Ascii.eqb_eq in H; now subst
  end.
Qed.

Lemma strip_plain pre rest :
  forallb plain pre = true ->
  _remove_comments (pre ++ rest) = pre ++ _remove_comments rest.
Proof.
  intros H. unfold _remove_comments.
  apply sub_keep_all with (p := plain); [apply comment_miss|exact H].
Qed.

(** What C2 says, where the code does it: after text free of quotes and
    slashes, a quoted run stays as it is whatever it holds, a block
    comment goes, and a line comment goes up to the newline. *)

(** X3. After text without quotes and slashes, a run between two double
    quotes, or between two single quotes, with no quote of that kind
    inside, is kept as it is, whatever else it holds, comment openers
    included, and stripping goes on behind it. *)
Lemma strip_quoted pre q body rest :
  forallb plain pre = true -> q = dquote \/ q = squote ->
  forallb (fun x => negb (Ascii.eqb q x)) body = true ->
  _remove_comments (pre ++ (q :: body ++ [q]) ++ rest)
  = pre ++ (q :: body ++ [q]) ++ _remove_comments rest.
Proof.
  intros Hp Hq Hb. rewrite strip_plain by exact Hp. f_equal.
  unfold _remove_comments.
  rewrite (sub_hit _ _ _ _ _ (match_quoted q body rest Hq Hb)) by discriminate.
  reflexivity.
Qed.

Lemma strip_block pre body rest :
  forallb plain pre = true ->
  forallb (fun x => negb (Ascii.eqb "*"%char x)) body = true ->
  _remove_comments (pre ++ (lit "/*" ++ body ++ lit "*/") ++ rest)
  = pre ++ _remove_comments rest.
Proof.
  intros Hp Hb. rewrite strip_plain by exact Hp. f_equal.
  unfold _remove_comments.
  rewrite (sub_hit _ _ _ _ _ (match_block body rest Hb)) by discriminate.
  reflexivity.
Qed.

(** X4. After text without quotes and slashes, a line comment that runs
    up to a newline, or to the end of the text, is removed and the
    newline is kept; stripping goes on from the newline. *)
Lemma strip_line pre body rest :
  forallb plain pre = true ->
  forallb not_crlf body = true -> at_eol rest = true ->
  _remove_comments (pre ++ (lit "//" ++ body) ++ rest)
  = pre ++ _remove_comments rest.
Proof.
  intros Hp Hb Hr. rewrite strip_plain by exact Hp. f_equal.
  unfold _remove_comments.
  rewrite (sub_hit _ _ _ _ _ (match_line body rest Hb Hr)) by discriminate.
  reflexivity.
Qed.

Lemma strip_examples :
  _remove_comments (lit "a // b" ++ [nl] ++ lit "c") = lit "a " ++ [nl] ++ lit "c"
  /\ _remove_comments (lit "/* x */y") = lit "y"
  /\ _remove_comments ([dquote] ++ lit "http://x" ++ [dquote])
     = [dquote] ++ lit "http://x" ++ [dquote]
  /\ _remove_comments ([squote] ++ lit "/* x */" ++ [squote])
     = [squote] ++ lit "/* x */" ++ [squote].
Proof. repeat split. Qed.

End Stripping.

(** C2 fails on the code for lines that end in a carriage return and a
    newline: the line comment of [a // b] before them stays in the
    result, and a declaration commented out on such a line is still
    reported by [uniforms]. *)
Theorem line_comment_before_cr_stays :
  _remove_comments (lit "a // b" ++ [cr; nl] ++ lit "c")
  = lit "a // b" ++ [cr; nl] ++ lit "c"
  /\ fst (uniforms (sample (lit "// uniform float x;" ++ [cr; nl])))
     = Ok [(lit "x", GL_FLOAT)]
  /\ fst (uniforms (sample (lit "// uniform float x;" ++ [nl]))) = Ok [].
Proof. repeat split. Qed.

(** ** Declarations among comments and other text *)

Section Between.

Import Char Re Shader Syntax Lifecycle Layout.












Section Placed.
Variable kw : str.
Hypothesis Hkw : run is_word kw = true.





End Placed.

End Between.

Import Layout.










(** ** Reading a property twice *)

Section StoreFacts.

Import Char Re Shader Syntax Store.

Lemma update_last {A} (f : A -> A) (L : list A) (x : A) :
  update (length L) f (L ++ [x]) = L ++ [f x].
Proof. induction L as [|y L IH]; cbn; [reflexivity|now rewrite IH]. Qed.

Lemma each_append o L name_of (g : gltype) : forall (idx : list nat) acc,
  each (fun i => append (length L) (name_of i, g)) idx (mkHeap o (L ++ [acc]))
  = (Ok tt, mkHeap o (L ++ [acc ++ map (fun i => (name_of i, g)) idx])).
Proof.
  induction idx as [|i idx IH]; intros acc; cbn [each map].
  - unfold ret. now rewrite app_nil_r.
  - unfold seq_, append at 1. cbn [object lists].
    rewrite update_last, IH. now rewrite <- app_assoc.
Qed.

Lemma add_name_tracks o L g acc m :
  tracks o L (Shader.add_name g acc m)
         (Store.add_name g (length L) m (mkHeap o (L ++ [acc]))).
Proof.
  unfold Shader.add_name, Store.add_name, tracks.
  destruct (group (groups m) 3) as [size|].
  - destruct (Num.int size =? 0).
    + exists acc. split; reflexivity.
    + rewrite each_append. eexists. split; [reflexivity|]. split; reflexivity.
  - unfold append. cbn [object lists fst snd]. rewrite update_last.
    eexists. split; [reflexivity|]. split; reflexivity.
Qed.

Lemma each_tracks {X} o L (pure : list entry -> X -> result (list entry))
    (body : X -> M unit) :
  (forall acc x, tracks o L (pure acc x) (body x (mkHeap o (L ++ [acc])))) ->
  forall xs acc,
    tracks o L (for_each pure acc xs) (each body xs (mkHeap o (L ++ [acc]))).
Proof.
  intros Hb. induction xs as [|x xs IH]; intros acc; cbn [for_each each].
  - exists acc. split; [reflexivity|]. split; reflexivity.
  - unfold seq_. destruct (Hb acc x) as (acc1 & Hs & Hp).
    destruct (body x (mkHeap o (L ++ [acc]))) as [r h1]. cbn [fst snd] in *.
    subst h1. destruct (pure acc x) as [es|e]; cbn [Shader.bind].
    + destruct Hp as [-> ->]. apply IH.
    + subst r. exists acc1. split; reflexivity.
Qed.

Lemma add_declaration_tracks o L acc m :
  tracks o L (Shader.add_declaration acc m)
         (Store.add_declaration (length L) m (mkHeap o (L ++ [acc]))).
Proof.
  unfold Shader.add_declaration, Store.add_declaration.
  destruct (gtypes_getitem (group_str m 1)) as [g|e]; cbn [Shader.bind].
  - apply each_tracks. intros acc0 x. apply add_name_tracks.
  - exists acc. split; reflexivity.
Qed.

(** A read allocates one list, leaves the shader and every other list as
    they were, and returns the address of the new list, which holds what
    the functional reading of the stored code gives. *)
Lemma read_declarations_store kw h :
  exists es,
    snd (Store.read_declarations kw h) = mkHeap (object h) (lists h ++ [es])
    /\ match fst (Shader.read_declarations kw (object h)) with
       | Ok out =>
           fst (Store.read_declarations kw h) = Ok (length (lists h))
           /\ es = out
       | Raise e => fst (Store.read_declarations kw h) = Raise e
       end.
Proof.
  unfold Store.read_declarations, Shader.read_declarations, seq_, new_list,
    get_code. cbn [object lists fst snd].
  destruct (_code (object h)) as [code|].
  - unfold declarations.
    destruct (each_tracks (object h) (lists h) Shader.add_declaration
                (Store.add_declaration (length (lists h)))
                (add_declaration_tracks (object h) (lists h))
                (finditer (re_type kw) (_remove_comments code)) [])
      as (acc & Hs & Hp).
    destruct (each _ _ _) as [r h1]. cbn [fst snd] in *. subst h1.
    exists acc. destruct (for_each _ _ _) as [out|e].
    + destruct Hp as [-> ->]. repeat split.
    + subst r. split; reflexivity.
  - exists []. split; reflexivity.
Qed.

End StoreFacts.

(** C8.  Reading [uniforms] or [attributes], as a program on the heap
    of objects: the read leaves the shader object as it was, source text
    included, and every list that was on the heap; it makes one new list
    and returns its address, or raises.  What the caller gets, the
    elements of that list in order or the exception, is what the stored
    source determines; so a second read right after the first, or a read
    on any heap that holds the same shader, whatever has been done to the
    lists returned before, gives the same elements in the same order, in a
    list of its own: nothing is kept from one read to the next.  After
    the setter of [code] a read gives what the new source determines,
    and the list returned before is as it was. *)
Theorem property_reads_repeatable (p : property) (h : Store.heap) :
  let out := Store.read p h in
  Store.object (snd out) = Store.object h
  /\ (exists es, Store.lists (snd out) = Store.lists h ++ [es])
  /\ (forall l, fst out = Ok l -> l = length (Store.lists h))
  /\ Store.value out = fst (read p (Store.object h))
  /\ (forall h', Store.object h' = Store.object h ->
        Store.value (Store.read p h') = Store.value out)
  /\ Store.value (Store.read p (snd out)) = Store.value out
  /\ (forall l1 l2,
        fst out = Ok l1 -> fst (Store.read p (snd out)) = Ok l2 -> l2 = S l1)
  /\ (forall fs code l,
        let h' := snd (Store.set_code fs code (snd out)) in
        Store.value (Store.read p h')
        = fst (read p (snd (Lifecycle.set_code fs (Store.object h) code)))
        /\ (fst out = Ok l -> Store.deref h' l = Store.deref (snd out) l)).
Proof.
  assert (Hread : forall h0,
            exists es,
              snd (Store.read p h0)
              = Store.mkHeap (Store.object h0) (Store.lists h0 ++ [es])
              /\ (forall l, fst (Store.read p h0) = Ok l ->
                    l = length (Store.lists h0))
              /\ Store.value (Store.read p h0)
                 = fst (read p (Store.object h0))).
  { intros h0.
    assert (E : exists kw, Store.read p = Store.read_declarations kw
                           /\ read p = read_declarations kw)
      by (destruct p; eexists; split; reflexivity).
    destruct E as (kw & -> & ->).
    destruct (read_declarations_store kw h0) as (es & Hs & Hv).
    exists es. split; [exact Hs|]. unfold Store.value, Store.deref. rewrite Hs.
    cbn [Store.lists].
    destruct (fst (read_declarations kw (Store.object h0))) as [out|e].
    - destruct Hv as [-> ->]. split; [now intros l [= <-]|].
      now rewrite nth_middle.
    - rewrite Hv. split; [discriminate|reflexivity]. }
  intros out. subst out.
  destruct (Hread h) as (es & Hs & Ha & Hv).
  assert (Ho : Store.object (snd (Store.read p h)) = Store.object h)
    by now rewrite Hs.
  split; [exact Ho|]. split; [exists es; now rewrite Hs|].
  split; [exact Ha|]. split; [exact Hv|]. split; [|split; [|split]].
  - intros h' Hh'. destruct (Hread h') as (_ & _ & _ & ->).
    now rewrite Hv, Hh'.
  - destruct (Hread (snd (Store.read p h))) as (_ & _ & _ & ->).
    now rewrite Hv, Ho.
  - intros l1 l2 H1 H2.
    destruct (Hread (snd (Store.read p h))) as (_ & _ & Ha2 & _).
    rewrite (Ha2 l2 H2), (Ha l1 H1), Hs. cbn [Store.lists].
    rewrite length_app. cbn [length]. lia.
  - intros fs code l h'. subst h'.
    destruct (Hread (snd (Store.set_code fs code (snd (Store.read p h)))))
      as (_ & _ & _ & ->).
    unfold Store.set_code, Store.deref. rewrite Ho.
    destruct (Lifecycle.set_code fs (Store.object h) code) as [r self'].
    cbn [snd Store.object Store.lists]. split; reflexivity.
Qed.

(** ** The qualifier inside an identifier *)

Section Boundary.

Import Char Re Shader Syntax.

Ltac peel p E :=
  destruct p as [|? p];
  [simpl in E; try discriminate E; injection E; intros; subst;
   try discriminate | ].

Lemma uniform_inside x p u :
  is_word x = true -> forallb is_word p = true ->
  match_ (re_type (lit "uniform")) (x :: p ++ lit "uniform" ++ u) = None.
Proof.
  intros Hx Hp. destruct (match_ _ _) as [m|] eqn:E; [|reflexivity].
  exfalso. apply type_match_head in E as (ws & sp & t & E & Hw & Hs).
  rewrite (head_not_space _ _ _ _ Hx Hw E) in E. cbn [app] in E.
  change (lit "uniform" ++ sp :: t)
    with ("u" :: "n" :: "i" :: "f" :: "o" :: "r" :: "m" :: sp :: t)%char in E.
  change (lit "uniform" ++ u)
    with ("u" :: "n" :: "i" :: "f" :: "o" :: "r" :: "m" :: u)%char in E.
  do 6 peel p E.
  destruct p as [|c p].
  - simpl in E. injection E; intros; subst. discriminate.
  - simpl in E. injection E; intros; subst.
    cbn [forallb] in Hp. simpl in Hp.
    apply andb_true_iff in Hp as [Hc _].
    rewrite (word_not_space _ Hc) in Hs. discriminate.
Qed.

Lemma attribute_inside x p u :
  is_word x = true -> forallb is_word p = true ->
  match_ (re_type (lit "attribute")) (x :: p ++ lit "attribute" ++ u) = None.
Proof.
  intros Hx Hp. destruct (match_ _ _) as [m|] eqn:E; [|reflexivity].
  exfalso. apply type_match_head in E as (ws & sp & t & E & Hw & Hs).
  rewrite (head_not_space _ _ _ _ Hx Hw E) in E. cbn [app] in E.
  change (lit "attribute" ++ sp :: t)
    with ("a" :: "t" :: "t" :: "r" :: "i" :: "b" :: "u" :: "t" :: "e"
              :: sp :: t)%char in E.
  change (lit "attribute" ++ u)
    with ("a" :: "t" :: "t" :: "r" :: "i" :: "b" :: "u" :: "t" :: "e"
              :: u)%char in E.
  do 8 peel p E.
  destruct p as [|c p].
  - simpl in E. injection E; intros; subst. discriminate.
  - simpl in E. injection E; intros; subst.
    cbn [forallb] in Hp. simpl in Hp.
    apply andb_true_iff in Hp as [Hc _].
    rewrite (word_not_space _ Hc) in Hs. discriminate.
Qed.

Lemma finditer_inside r kw p u :
  (forall x p', is_word x = true -> forallb is_word p' = true ->
                match_ r (x :: p' ++ kw ++ u) = None) ->
  forallb is_word p = true ->
  finditer r (p ++ kw ++ u) = finditer r (kw ++ u).
Proof.
  intros Hm. induction p as [|x p IH]; [reflexivity|].
  cbn [forallb]. rewrite andb_true_iff. intros [Hx Hp].
  cbn [app]. rewrite finditer_keep by (now apply Hm). now apply IH.
Qed.

Lemma declarations_inside kw p u :
  (forall x p', is_word x = true -> forallb is_word p' = true ->
                match_ (re_type kw) (x :: p' ++ kw ++ u) = None) ->
  forallb is_word p = true -> _remove_comments (kw ++ u) = kw ++ u ->
  declarations kw (p ++ kw ++ u) = declarations kw (kw ++ u).
Proof.
  intros Hm Hp Hu. unfold declarations.
  rewrite strip_plain by (apply (forallb_impl _ _ _ word_plain Hp)).
  rewrite Hu. now rewrite finditer_inside.
Qed.
End Boundary.

(** C10. The declaration pattern is not anchored at a token boundary:
    whatever identifier characters come right before the qualifier, as in
    [myuniform float x;] where the qualifier is only the end of a longer
    identifier, [uniforms] reports [x] as a [float]; likewise
    [attributes] for [attribute].  The scan finds no match at the start
    of the identifier and finds one inside it, where the leading [\s*]
    matches the empty text. *)
Theorem qualifier_inside_identifier (p : str) (self : shader) :
  forallb is_word p = true ->
  (_code self = Some (p ++ lit "uniform float x;") ->
   fst (uniforms self) = Ok [(lit "x", GL_FLOAT)])
  /\ (_code self = Some (p ++ lit "attribute float x;") ->
      fst (attributes self) = Ok [(lit "x", GL_FLOAT)]).
Proof.
  intros Hp. split; intros Hc.
  - unfold uniforms. rewrite (read_code _ _ _ Hc). cbn [fst].
    change (lit "uniform float x;") with (lit "uniform" ++ lit " float x;").
    rewrite declarations_inside; [reflexivity| |exact Hp|reflexivity].
    intros x p' Hx Hp'. now apply uniform_inside.
  - unfold attributes. rewrite (read_code _ _ _ Hc). cbn [fst].
    change (lit "attribute float x;") with (lit "attribute" ++ lit " float x;").
    rewrite declarations_inside; [reflexivity| |exact Hp|reflexivity].
    intros x p' Hx Hp'. now apply attribute_inside.
Qed.

Lemma qualifier_inside_identifier_witness :
  forallb is_word (lit "my") = true
  /\ fst (uniforms (sample (lit "myuniform float x;"))) = Ok [(lit "x", GL_FLOAT)]
  /\ fst (attributes (sample (lit "myattribute float x;")))
     = Ok [(lit "x", GL_FLOAT)]
  /\ finditer (re_type (lit "uniform")) (lit "myuniform float x;")
     = [mkMatch (lit "uniform float x;") [(2, lit "x"); (1, lit "float")]].
Proof.
  split; [reflexivity|]. split; [|split; [|reflexivity]].
  - exact (proj1 (qualifier_inside_identifier (lit "my")
                    (sample (lit "my" ++ lit "uniform float x;")) eq_refl)
             eq_refl).
  - exact (proj2 (qualifier_inside_identifier (lit "my")
                    (sample (lit "my" ++ lit "attribute float x;")) eq_refl)
             eq_refl).
Defined.

(** * More of the code *)

(** ** Comments and declarations *)

Section MoreStripping.

Import Char Re Shader Syntax Lifecycle.

(** The three shapes of a match of the comment pattern. *)
Lemma comment_match_shape s m :
  match_ re_comment s = Some m ->
  exists rest,
    s = text m ++ rest
    /\ ((exists q body, (q = dquote \/ q = squote) /\ text m = q :: body ++ [q])
        \/ (exists body, text m = lit "//" ++ body
                         /\ forallb not_crlf body = true /\ at_eol rest = true)
        \/ (exists body, text m = lit "/*" ++ body ++ lit "*/")).
Proof.
  intros H. apply match_sound in H as (rest & E & H). exists rest.
  split; [exact E|]. clear E.
  destruct m as [t g]. cbn [text groups] in *. unfold re_comment in H.
  inversion H; subst; clear H;
    match goal with H : sem (Grp _ _) _ _ _ _ |- _ => inversion H; subst; clear H end;
    match goal with H : sem (Alt _ _) _ _ _ _ |- _ => inversion H; subst; clear H end;
    sem_inv.
  - left. match goal with |- context [_ ++ ?w ++ _] => exists dquote, w end.
    split; [now left|reflexivity].
  - left. match goal with |- context [_ ++ ?w ++ _] => exists squote, w end.
    split; [now right|reflexivity].
  - right. right. match goal with |- context [_ ++ ?w ++ _] => exists w end.
    reflexivity.
  - right. left. match goal with |- context [_ ++ ?w ++ _] => exists w end.
    rewrite app_nil_r in *. repeat split; assumption.
Qed.

Lemma strip_nil : _remove_comments [] = [].
Proof. reflexivity. Qed.

Lemma strip_plain_whole s :
  forallb plain s = true -> _remove_comments s = s.
Proof.
  intros H. rewrite <- (app_nil_r s) at 1.
  rewrite strip_plain by exact H. now rewrite strip_nil, app_nil_r.
Qed.


Lemma strip_keep x s :
  match_ re_comment (x :: s) = None ->
  _remove_comments (x :: s) = x :: _remove_comments s.
Proof.
  intros H. unfold _remove_comments, sub. now rewrite (scan_keep _ _ _ H).
Qed.

(** An opening [/*] with no quote and no slash after it starts no
    match. *)
Lemma open_block_miss body :
  forallb plain body = true -> match_ re_comment (lit "/*" ++ body) = None.
Proof.
  intros Hb. destruct (match_ re_comment _) as [m|] eqn:E; [|reflexivity].
  exfalso. apply comment_match_shape in E
    as (rest & E & [(q & b & Hq & Ht) | [(b & Ht & _) | (b & Ht)]]);
    rewrite Ht in E.
  - destruct Hq as [-> | ->]; discriminate E.
  - discriminate E.
  - rewrite <- !app_assoc in E. apply app_inv_head in E.
    assert (Hin : In "/"%char body)
      by (rewrite E, !in_app_iff; right; left; right; now left).
    rewrite forallb_forall in Hb. specialize (Hb _ Hin). discriminate Hb.
Qed.

Lemma open_quote_miss q body :
  q = dquote \/ q = squote ->
  forallb plain body = true -> match_ re_comment (q :: body) = None.
Proof.
  intros Hq Hb. destruct (match_ re_comment _) as [m|] eqn:E; [|reflexivity].
  exfalso. apply comment_match_shape in E
    as (rest & E & [(q' & b & Hq' & Ht) | [(b & Ht & _) | (b & Ht)]]);
    rewrite Ht in E.
  - injection E as <- E.
    assert (Hin : In q body)
      by (rewrite E, !in_app_iff; left; right; now left).
    rewrite forallb_forall in Hb. specialize (Hb _ Hin).
    destruct Hq as [-> | ->]; discriminate Hb.
  - destruct Hq as [-> | ->]; discriminate E.
  - destruct Hq as [-> | ->]; discriminate E.
Qed.

Lemma forallb_kept (p : ascii -> bool) (ps : list piece) :
  forallb p (whole ps) = true -> forallb p (kept ps) = true.
Proof.
  unfold whole, kept. induction ps as [|[b w] ps IH]; [reflexivity|].
  cbn [map concat filter fst snd]. rewrite forallb_app, andb_true_iff.
  intros [Hw Hps]. destruct b; cbn [map concat snd]; [|now apply IH].
  rewrite forallb_app, Hw. now apply IH.
Qed.

(** Stripping removes characters and adds none. *)
Lemma forallb_strip (p : ascii -> bool) s :
  forallb p s = true -> forallb p (_remove_comments s) = true.
Proof.
  intros H.
  assert (E : _remove_comments s = kept (pieces s)).
  { unfold _remove_comments, sub, pieces. apply sub_kept.
    intros m Hm. eapply scan_hits_matched, Hm. }
  rewrite E. apply forallb_kept. unfold whole, pieces.
  rewrite scan_whole by lia. exact H.
Qed.

Lemma type_match_semicolon kw s m :
  match_ (re_type kw) s = Some m -> In ";"%char s.
Proof.
  intros H. apply match_sound in H as (rest & -> & H).
  destruct m as [t g]. cbn [text groups] in *. unfold re_type in H.
  sem_inv. rewrite !in_app_iff. left. do 6 right. now left.
Qed.

Lemma finditer_no_semicolon kw s :
  forallb (fun c => negb (Ascii.eqb c ";"%char)) s = true ->
  finditer (re_type kw) s = [].
Proof.
  assert (Hnone : forall t,
             forallb (fun c => negb (Ascii.eqb c ";"%char)) t = true ->
             match_ (re_type kw) t = None).
  { intros t Ht. destruct (match_ (re_type kw) t) as [m|] eqn:E; [|reflexivity].
    apply type_match_semicolon in E. rewrite forallb_forall in Ht.
    specialize (Ht _ E). discriminate Ht. }
  induction s as [|x s IH]; intros H.
  - unfold finditer. cbn [scan]. now rewrite (Hnone [] H).
  - rewrite finditer_keep by (now apply Hnone).
    apply IH. cbn [forallb] in H. now apply andb_true_iff in H as [_ H].
Qed.

End MoreStripping.

Import Lifecycle.

(** X1. A text that holds no quote and no slash has nothing to strip:
    [_remove_comments] returns it as it is. *)
Theorem strip_plain_text (s : str) :
  forallb plain s = true -> _remove_comments s = s.
Proof. apply strip_plain_whole. Qed.

Lemma strip_plain_text_witness :
  forallb plain (lit "uniform float a[3];") = true
  /\ _remove_comments (lit "uniform float a[3];") = lit "uniform float a[3];".
Proof.
  split; [reflexivity|].
  exact (strip_plain_text (lit "uniform float a[3];") eq_refl).
Defined.

(** X2. After text without quotes and slashes, a block comment from its
    opening to the first closing after it is removed, all of it, newlines
    and quotes inside included, and stripping goes on behind it. *)
Theorem strip_block_comment (pre body rest : str) :
  forallb plain pre = true -> no_close body = true ->
  _remove_comments (pre ++ (lit "/*" ++ body ++ lit "*/") ++ rest)
  = pre ++ _remove_comments rest.
Proof.
  intros Hp Hb. rewrite strip_plain by exact Hp. f_equal.
  unfold _remove_comments.
  rewrite (sub_hit _ _ _ _ _ (match_block_comment body rest Hb)) by discriminate.
  reflexivity.
Qed.

Lemma strip_block_comment_witness :
  forallb plain (lit "a ") = true
  /\ no_close (lit " it's * a " ++ [nl] ++ lit "// b ") = true
  /\ _remove_comments (lit "a " ++ (lit "/*" ++ (lit " it's * a " ++ [nl] ++ lit "// b ")
                                     ++ lit "*/") ++ lit " c")
     = lit "a " ++ lit " c".
Proof.
  split; [reflexivity|]. split; [reflexivity|].
  exact (strip_block_comment (lit "a ") (lit " it's * a " ++ [nl] ++ lit "// b ")
           (lit " c") eq_refl eq_refl).
Defined.

(** X5. A block comment that is opened and never closed, and a quote that
    is opened and never closed, are not comments for the pattern: with no
    further quote or slash behind them the text is returned unchanged. *)
Theorem strip_unterminated (pre body : str) :
  forallb plain pre = true -> forallb plain body = true ->
  _remove_comments (pre ++ lit "/*" ++ body) = pre ++ lit "/*" ++ body
  /\ _remove_comments (pre ++ dquote :: body) = pre ++ dquote :: body
  /\ _remove_comments (pre ++ squote :: body) = pre ++ squote :: body.
Proof.
  intros Hp Hb. repeat split; rewrite strip_plain by exact Hp; f_equal.
  - change (lit "/*" ++ body) with ("/"%char :: "*"%char :: body).
    rewrite strip_keep by (apply (open_block_miss body Hb)).
    f_equal. apply strip_plain_whole. cbn [forallb]. now rewrite Hb.
  - rewrite strip_keep by (apply open_quote_miss; auto).
    f_equal. now apply strip_plain_whole.
  - rewrite strip_keep by (apply open_quote_miss; auto).
    f_equal. now apply strip_plain_whole.
Qed.

Lemma strip_unterminated_witness :
  forallb plain (lit "a ") = true /\ forallb plain (lit " b; c") = true
  /\ _remove_comments (lit "a /* b; c") = lit "a /* b; c".
Proof.
  split; [reflexivity|]. split; [reflexivity|].
  exact (proj1 (strip_unterminated (lit "a ") (lit " b; c") eq_refl eq_refl)).
Defined.

(** X6. A source without a semicolon declares nothing: whatever else it
    holds, comments, quotes or qualifiers, the extraction returns the
    empty list and raises no error. *)
Theorem no_semicolon_no_declaration (kw code : str) :
  forallb (fun c => negb (Ascii.eqb c ";"%char)) code = true ->
  declarations kw code = Ok [].
Proof.
  intros H. unfold declarations.
  rewrite finditer_no_semicolon by (now apply forallb_strip). reflexivity.
Qed.

Lemma no_semicolon_no_declaration_witness :
  forallb (fun c => negb (Ascii.eqb c ";"%char)) (lit "uniform foo a[0]") = true
  /\ declarations (lit "uniform") (lit "uniform foo a[0]") = Ok [].
Proof.
  split; [reflexivity|].
  exact (no_semicolon_no_declaration (lit "uniform") (lit "uniform foo a[0]")
           eq_refl).
Defined.



(** ** Creation *)

Section Creation.

Import Char Re Shader Syntax Lifecycle.

(** The handle [_create] works on: the stored one, or the one asked for
    when none is stored. *)
Lemma create_unfold gl self code :
  _code self = Some code -> code <> [] ->
  _create gl self
  = let self1 := if (_handle self <=? 0)%Z
                 then set_handle self (create_shader gl (_target self))
                 else self in
    let calls0 := if (_handle self <=? 0)%Z
                  then [glCreateShader (_target self)] else [] in
    let h := _handle self1 in
    if (h <=? 0)%Z
    then mkOutcome (Raise (RuntimeError (lit "Cannot create shader object")))
                   self1 calls0 []
    else
      let calls1 := calls0 ++ [glShaderSource h code;
                               log_debug (lit "GPU: Creating shader");
                               glCompileShader h; glGetShaderiv h] in
      if (compile_status gl h code =? 0)%Z
      then match _parse_error (info_log gl h code) with
           | Raise e => mkOutcome (Raise e) self1
                                  (calls1 ++ [glGetShaderInfoLog h]) []
           | Ok (lineno, mesg) =>
               mkOutcome (Raise (RuntimeError (lit "Shader compilation error")))
                         self1 (calls1 ++ [glGetShaderInfoLog h])
                         (_print_error (repr self1) code mesg
                                       (Z.of_nat lineno - 1))
           end
      else mkOutcome (Ok tt) self1 calls1 [].
Proof.
  intros Hc Hne. unfold _create, no_code. rewrite Hc.
  destruct code as [|x code]; [congruence|].
  destruct (_handle self <=? 0)%Z; reflexivity.
Qed.

Lemma parse_error_sound e L m :
  _parse_error e = Ok (L, m) -> diagnostic e L m.
Proof.
  intros H. destruct (parse_error_cases e) as [(L' & m' & D)|R].
  - pose proof (parse_error_complete _ _ _ D) as H'.
    rewrite H in H'. injection H' as -> ->. exact D.
  - rewrite H in R. discriminate.
Qed.

End Creation.

(** X8. Whatever happens in [_create], it leaves the source text, its
    origin, the target, the identifier and the update flag as they were;
    a handle that is already positive is kept, and a handle that is not
    is replaced by the answer of [glCreateShader], also when that answer
    is a failure. *)
Theorem create_keeps_fields (gl : driver) (self : shader) :
  let after := state (_create gl self) in
  _code after = _code self /\ _source after = _source self
  /\ _target after = _target self /\ _id after = _id self
  /\ _need_update after = _need_update self
  /\ ((0 < _handle self)%Z -> _handle after = _handle self)
  /\ ((_handle self <= 0)%Z -> no_code self = false ->
      _handle after = create_shader gl (_target self)).
Proof.
  unfold _create.
  destruct (no_code self) eqn:Hn.
  - cbn [state]. repeat split; try reflexivity. discriminate.
  - destruct (_handle self <=? 0)%Z eqn:Hh.
    + cbn zeta beta iota.
      destruct (_handle (set_handle self (create_shader gl (_target self))) <=? 0)%Z;
        [|destruct (compile_status gl _ _ =? 0)%Z;
          [destruct (_parse_error _) as [[? ?]|?]|]];
        cbn [state _code _source _target _id _need_update _handle set_handle];
        repeat split; try reflexivity; intros; lia.
    + cbn zeta beta iota. rewrite Hh.
      destruct (compile_status gl _ _ =? 0)%Z;
        [destruct (_parse_error _) as [[? ?]|?]|];
        cbn [state]; repeat split; try reflexivity; intros; lia.
Qed.

(** X9. [_create] returns normally exactly when there is source text, the
    handle it works on is positive and the driver reports a compile
    status other than 0; then it has sent the source, logged, compiled
    and asked for the status, in this order, after asking for a handle
    only if none was stored, and has printed nothing. *)
Theorem create_succeeds_iff (gl : driver) (self : shader) (code : str) :
  _code self = Some code ->
  let stored := (0 <? _handle self)%Z in
  let h := if stored then _handle self else create_shader gl (_target self) in
  (returned (_create gl self) = Ok tt
   <-> code <> [] /\ (0 < h)%Z /\ compile_status gl h code <> 0%Z)
  /\ (returned (_create gl self) = Ok tt ->
      calls (_create gl self)
      = (if stored then [] else [glCreateShader (_target self)])
        ++ [glShaderSource h code; log_debug (lit "GPU: Creating shader");
            glCompileShader h; glGetShaderiv h]
      /\ printed (_create gl self) = []
      /\ _handle (state (_create gl self)) = h).
Proof.
  intros Hc stored h.
  destruct code as [|x code].
  { unfold _create, no_code. rewrite Hc. cbn [returned].
    split; [split; [discriminate|intros [H _]; congruence]|discriminate]. }
  rewrite (create_unfold gl self (x :: code) Hc) by discriminate.
  subst stored h. cbn zeta.
  destruct (_handle self <=? 0)%Z eqn:Hh.
  - replace (0 <? _handle self)%Z with false by (symmetry; lia).
    cbn [_handle set_handle].
    destruct (create_shader gl (_target self) <=? 0)%Z eqn:Hn.
    + cbn [returned]. split; [split; [discriminate|intros (_ & H & _); lia]
                             |discriminate].
    + destruct (compile_status gl _ _ =? 0)%Z eqn:Hs.
      * destruct (_parse_error _) as [[? ?]|?]; cbn [returned];
          (split; [split; [discriminate|intros (_ & _ & H); lia]|discriminate]).
      * cbn [returned calls printed state _handle set_handle app].
        split; [split; [intros _; repeat split; [discriminate|lia|lia]
                       |reflexivity]|].
        intros _. repeat split.
  - replace (0 <? _handle self)%Z with true by (symmetry; lia).
    rewrite Hh.
    destruct (compile_status gl _ _ =? 0)%Z eqn:Hs.
    + destruct (_parse_error _) as [[? ?]|?]; cbn [returned];
        (split; [split; [discriminate|intros (_ & _ & H); lia]|discriminate]).
    + cbn [returned calls printed state app].
      split; [split; [intros _; repeat split; [discriminate|lia|lia]
                     |reflexivity]|].
      intros _. repeat split.
Qed.

Lemma create_succeeds_iff_witness :
  let gl := mkDriver (fun _ => 5%Z) (fun _ _ => 1%Z) (fun _ _ => []) in
  let self := sample (lit "void main(){}") in
  _code self = Some (lit "void main(){}")
  /\ returned (_create gl self) = Ok tt
  /\ calls (_create gl self)
     = [glCreateShader GL_VERTEX_SHADER; glShaderSource 5 (lit "void main(){}");
        log_debug (lit "GPU: Creating shader"); glCompileShader 5;
        glGetShaderiv 5].
Proof.
  intros gl self. split; [reflexivity|].
  pose proof (create_succeeds_iff gl self (lit "void main(){}") eq_refl) as H.
  split; [reflexivity|].
  exact (proj1 (proj2 H eq_refl)).
Defined.

(** X10. When there is source text and no handle is stored, and the
    driver answers the request for one with a number that is not
    positive, [_create] raises [Cannot create shader object] after that
    single call: the source is never sent, nothing is printed, and the
    failed answer is what the object now holds as its handle. *)
Theorem create_allocation_failure (gl : driver) (self : shader) :
  no_code self = false -> (_handle self <= 0)%Z ->
  (create_shader gl (_target self) <= 0)%Z ->
  _create gl self
  = mkOutcome (Raise (RuntimeError (lit "Cannot create shader object")))
              (set_handle self (create_shader gl (_target self)))
              [glCreateShader (_target self)] [].
Proof.
  intros Hn Hh Hc. unfold _create. rewrite Hn.
  replace (_handle self <=? 0)%Z with true by (symmetry; lia).
  cbn zeta beta iota. cbn [_handle set_handle].
  replace (create_shader gl (_target self) <=? 0)%Z with true
    by (symmetry; lia).
  reflexivity.
Qed.

Lemma create_allocation_failure_witness :
  let gl := mkDriver (fun _ => 0%Z) (fun _ _ => 1%Z) (fun _ _ => []) in
  let self := sample (lit "void main(){}") in
  no_code self = false /\ (_handle self <= 0)%Z
  /\ (create_shader gl (_target self) <= 0)%Z
  /\ returned (_create gl self)
     = Raise (RuntimeError (lit "Cannot create shader object")).
Proof.
  intros gl self.
  assert (H1 : (_handle self <= 0)%Z) by (vm_compute; discriminate).
  assert (H2 : (create_shader gl (_target self) <= 0)%Z)
    by (vm_compute; discriminate).
  split; [reflexivity|]. split; [exact H1|]. split; [exact H2|].
  exact (f_equal returned (create_allocation_failure gl self eq_refl H1 H2)).
Defined.

(** X11. When the driver reports the compile status 0, [_create] asks for
    the log and always raises.  If the log is a diagnostic in one of the
    three formats, with line [L], the error is [Shader compilation error]
    and the display for the zero-based line [L - 1] of the source has been
    printed; if it is not, the error is [Unknown GLSL error format]
    instead, and nothing has been printed. *)
Theorem create_compile_failure (gl : driver) (self : shader) (code : str) :
  _code self = Some code -> code <> [] ->
  let after := state (_create gl self) in
  let h := _handle after in
  (0 < h)%Z -> compile_status gl h code = 0%Z ->
  (exists before, calls (_create gl self) = before ++ [glGetShaderInfoLog h])
  /\ (forall L m, diagnostic (info_log gl h code) L m ->
        returned (_create gl self)
        = Raise (RuntimeError (lit "Shader compilation error"))
        /\ printed (_create gl self)
           = _print_error (repr after) code m (Z.of_nat L - 1))
  /\ ((forall L m, ~ diagnostic (info_log gl h code) L m) ->
      returned (_create gl self)
      = Raise (ValueError (lit "Unknown GLSL error format"))
      /\ printed (_create gl self) = []).
Proof.
  intros Hc Hne. rewrite (create_unfold gl self code Hc Hne). cbn zeta.
  set (self1 := if (_handle self <=? 0)%Z
                then set_handle self (create_shader gl (_target self))
                else self).
  destruct (_handle self1 <=? 0)%Z eqn:Hh; cbn [state]; [intros; lia|].
  destruct (compile_status gl (_handle self1) code =? 0)%Z eqn:Hs.
  - destruct (_parse_error (info_log gl (_handle self1) code))
      as [[L0 m0]|e0] eqn:P;
      cbn [state calls returned printed]; intros _ _;
      (split; [eauto|split]).
    + intros L m D. rewrite (parse_error_complete _ _ _ D) in P.
      injection P as -> ->. split; reflexivity.
    + intros Hno. destruct (Hno _ _ (parse_error_sound _ _ _ P)).
    + intros L m D. rewrite (parse_error_complete _ _ _ D) in P.
      discriminate P.
    + intros Hno.
      destruct (parse_error_cases (info_log gl (_handle self1) code))
        as [(L & m & D)|R]; [destruct (Hno _ _ D)|].
      rewrite P in R. injection R as ->. split; reflexivity.
  - cbn [state]. intros _ H. lia.
Qed.

Lemma create_compile_failure_witness :
  let gl := mkDriver (fun _ => 5%Z) (fun _ _ => 0%Z)
                     (fun _ _ => lit "0(2): error C0000: syntax error") in
  let code := lit "void main()" ++ [nl] ++ lit "{ x }" in
  let self := sample code in
  _code self = Some code /\ code <> []
  /\ (0 < _handle (state (_create gl self)))%Z
  /\ returned (_create gl self)
     = Raise (RuntimeError (lit "Shader compilation error"))
  /\ printed (_create gl self)
     = [lit "Error in Vertex Shader 1 (<string>)";
        lit " -> error C0000: syntax error"; [];
        lit " 000 void main()"; lit " 001 { x }"; []].
Proof.
  intros gl code self.
  assert (Hne : code <> []) by discriminate.
  assert (Hh : (0 < _handle (state (_create gl self)))%Z) by reflexivity.
  split; [reflexivity|]. split; [exact Hne|]. split; [exact Hh|].
  exact (proj1 (proj2 (create_compile_failure gl self code eq_refl Hne Hh eq_refl))
           2 (lit "error C0000: syntax error")
           (Nvidia (lit "0") (lit "2") " "%char
              (lit "error C0000: syntax error") []
              eq_refl eq_refl eq_refl eq_refl eq_refl)).
Defined.

(** X12. Once [_create] has returned normally, calling it again on the
    object it left asks for no new handle: it sends the same source to
    the same handle, and returns normally again, the driver answering as
    before. *)
Theorem create_again_reuses_handle (gl : driver) (self : shader) :
  returned (_create gl self) = Ok tt ->
  let after := state (_create gl self) in
  exists code,
    _code self = Some code
    /\ _create gl after
       = mkOutcome (Ok tt) after
           [glShaderSource (_handle after) code;
            log_debug (lit "GPU: Creating shader");
            glCompileShader (_handle after); glGetShaderiv (_handle after)]
           [].
Proof.
  intros H after.
  destruct (_code self) as [code|] eqn:Hc;
    [|unfold _create, no_code in H; rewrite Hc in H; discriminate H].
  exists code. split; [reflexivity|].
  destruct code as [|x code];
    [unfold _create, no_code in H; rewrite Hc in H; discriminate H|].
  assert (Hne : x :: code <> []) by discriminate.
  subst after. rewrite (create_unfold gl self (x :: code) Hc Hne) in *.
  cbn zeta in *.
  set (self1 := if (_handle self <=? 0)%Z
                then set_handle self (create_shader gl (_target self))
                else self) in *.
  assert (Hc1 : _code self1 = Some (x :: code))
    by (subst self1; destruct (_handle self <=? 0)%Z; exact Hc).
  destruct (_handle self1 <=? 0)%Z eqn:Hh; [discriminate H|].
  destruct (compile_status gl (_handle self1) (x :: code) =? 0)%Z eqn:Hs;
    [destruct (_parse_error _) as [[? ?]|?]; discriminate H|].
  cbn [state].
  rewrite (create_unfold gl self1 (x :: code) Hc1 Hne). cbn zeta.
  rewrite Hh, Hh, Hs. reflexivity.
Qed.

Lemma create_again_reuses_handle_witness :
  let gl := mkDriver (fun _ => 5%Z) (fun _ _ => 1%Z) (fun _ _ => []) in
  let self := sample (lit "void main(){}") in
  returned (_create gl self) = Ok tt
  /\ calls (_create gl (state (_create gl self)))
     = [glShaderSource 5 (lit "void main(){}");
        log_debug (lit "GPU: Creating shader"); glCompileShader 5;
        glGetShaderiv 5].
Proof.
  intros gl self. split; [reflexivity|].
  destruct (create_again_reuses_handle gl self eq_refl) as (code & Hc & H).
  injection Hc as <-. exact (f_equal calls H).
Defined.

(** X13. Of a log whose first line is a diagnostic, only that line is
    read: whatever the driver writes after it, on further lines, changes
    neither the line number nor the message that [_parse_error] returns. *)
Theorem parse_error_reads_first_line (line more : str) (L : nat) (m : str) :
  forallb not_nl line = true ->
  _parse_error line = Ok (L, m) ->
  _parse_error (line ++ nl :: more) = Ok (L, m).
Proof.
  intros Hl H. apply parse_error_sound in H. apply parse_error_complete.
  assert (Hrest : forall pre msg rest,
             forallb not_nl (pre ++ msg ++ rest) = true ->
             at_eol rest = true -> rest = []).
  { intros pre msg [|x rest] Hp Hr; [reflexivity|].
    rewrite !forallb_app in Hp. cbn [forallb] in Hp. simpl in Hr.
    unfold not_nl in Hp. rewrite Hr in Hp.
    rewrite !andb_false_r in Hp. discriminate Hp. }
  inversion H as [n l sp msg rest Hn Hd Hsp Hm Hr E
                 |sp0 s0 l sp msg rest Hsp0 Hs Hd Hsp Hm Hr E
                 |s0 l col sp msg rest Hs Hd Hc Hsp Hm Hr E]; subst L m.
  - assert (rest = []).
    { apply (Hrest (n ++ lit "(" ++ l ++ lit "):" ++ [sp]) msg); [|exact Hr].
      rewrite <- E in Hl. norm_app. exact Hl. }
    subst rest. rewrite app_nil_r. norm_app.
    apply Nvidia; auto.
  - assert (rest = []).
    { apply (Hrest (lit "ERROR:" ++ sp0 :: s0 ++ lit ":" ++ l ++ lit ":" ++ [sp])
               msg); [|exact Hr].
      rewrite <- E in Hl. norm_app. exact Hl. }
    subst rest. rewrite app_nil_r. norm_app.
    apply Ati; auto.
  - assert (rest = []).
    { apply (Hrest (s0 ++ lit ":" ++ l ++ lit "(" ++ col ++ lit "):" ++ [sp])
               msg); [|exact Hr].
      rewrite <- E in Hl. norm_app. exact Hl. }
    subst rest. rewrite app_nil_r. norm_app.
    apply Nouveau; auto.
Qed.

Lemma parse_error_reads_first_line_witness :
  forallb not_nl (lit "0:28(16): error: syntax error") = true
  /\ _parse_error (lit "0:28(16): error: syntax error")
     = Ok (28, lit "error: syntax error")
  /\ _parse_error (lit "0:28(16): error: syntax error" ++ nl :: lit "0:30(1): x")
     = Ok (28, lit "error: syntax error").
Proof.
  split; [reflexivity|]. split; [reflexivity|].
  exact (parse_error_reads_first_line (lit "0:28(16): error: syntax error")
           (lit "0:30(1): x") 28 (lit "error: syntax error") eq_refl eq_refl).
Defined.

(** ** The display at the bounds *)

Section MoreDisplay.

Import Char Re Shader Syntax Lifecycle.

Lemma split_lines_length s : (1 <= length (split_lines s))%nat.
Proof.
  destruct s as [|x s]; [simpl; lia|]. simpl.
  destruct (is_nl x); [simpl; lia|].
  destruct (split_lines s); simpl; lia.
Qed.

Lemma print_lines_length start lineno l :
  (length (flat_map (print_line start lineno) l) <= length l)%nat.
Proof.
  induction l as [|[i line] l IH]; [simpl; lia|].
  cbn [flat_map]. rewrite length_app. cbn [length print_line].
  destruct (Z.of_nat i + start =? lineno)%Z; [simpl; lia|].
  destruct (0 <? length line); simpl; lia.
Qed.

Lemma enumerate_length {A} (l : list A) : length (enumerate l) = length l.
Proof.
  unfold enumerate. rewrite length_combine, length_seq. lia.
Qed.

Lemma slice_length {A} (l : list A) (a b : Z) :
  (0 <= a)%Z -> (0 <= b)%Z ->
  (Z.of_nat (length (slice l a b)) <= Z.max 0 (b - a))%Z.
Proof.
  intros Ha Hb. unfold slice, slice_index.
  rewrite length_firstn.
  destruct (a <? 0)%Z eqn:E1; [lia|].
  destruct (b <? 0)%Z eqn:E2; lia.
Qed.

End MoreDisplay.

(** X14. When the offending line lies three or more lines beyond the last
    line of the source, [_print_error] shows no line of the source: the
    heading, the message, one ellipsis and the closing empty line are all
    it prints. *)
Theorem print_error_beyond_end (repr code error : str) (lineno : Z) :
  (Z.of_nat (length (split_lines code)) + 3 <= lineno)%Z ->
  _print_error repr code error lineno
  = [lit "Error in " ++ repr; lit " -> " ++ error; []; lit " ..."; []].
Proof.
  intros H. pose proof (split_lines_length code) as Hl.
  unfold _print_error, slice, slice_index.
  replace (0 <? Z.max 0 (lineno - 3))%Z with true by (symmetry; lia).
  replace (Z.min (Z.of_nat (length (split_lines code))) (lineno + 3)
           <? Z.of_nat (length (split_lines code)))%Z
    with false by (symmetry; lia).
  replace (Z.max 0 (lineno - 3) <? 0)%Z with false by (symmetry; lia).
  replace (Z.min (Z.of_nat (length (split_lines code))) (lineno + 3) <? 0)%Z
    with false by (symmetry; lia).
  replace (Z.to_nat _) with 0%nat by lia.
  reflexivity.
Qed.

Lemma print_error_beyond_end_witness :
  (Z.of_nat (length (split_lines (lit "a" ++ [nl] ++ lit "b"))) + 3 <= 5)%Z
  /\ _print_error (lit "R") (lit "a" ++ [nl] ++ lit "b") (lit "m") 5
     = [lit "Error in R"; lit " -> m"; []; lit " ..."; []].
Proof.
  assert (H : (Z.of_nat (length (split_lines (lit "a" ++ [nl] ++ lit "b"))) + 3
               <= 5)%Z) by (vm_compute; discriminate).
  split; [exact H|].
  exact (print_error_beyond_end (lit "R") (lit "a" ++ [nl] ++ lit "b")
           (lit "m") 5 H).
Defined.

(** X15. For an offending line number of -3 or more, [_print_error]
    prints at most twelve lines, however long the source is: the three
    lines of the heading, at most six numbered lines of the source with
    at most one ellipsis on either side, and the closing empty line. *)
Theorem print_error_is_short (repr code error : str) (lineno : Z) :
  (-3 <= lineno)%Z ->
  length (_print_error repr code error lineno) <= 12.
Proof.
  intros H. unfold _print_error.
  set (lines := split_lines code).
  set (start := Z.max 0 (lineno - 3)).
  set (end_ := Z.min (Z.of_nat (length lines)) (lineno + 3)).
  pose proof (print_lines_length start lineno (enumerate (slice lines start end_)))
    as H1.
  rewrite enumerate_length in H1.
  pose proof (slice_length lines start end_ ltac:(subst start; lia)
                ltac:(subst end_; lia)) as H2.
  rewrite !length_app. cbn [length].
  destruct (0 <? start)%Z; destruct (end_ <? Z.of_nat (length lines))%Z;
    cbn [length]; subst start end_; lia.
Qed.

Lemma print_error_is_short_witness :
  (-3 <= -1)%Z
  /\ length (_print_error (lit "R") (lit "a" ++ [nl] ++ lit "b") (lit "m") (-1))
     <= 12.
Proof.
  assert (H : (-3 <= -1)%Z) by (vm_compute; discriminate).
  split; [exact H|].
  exact (print_error_is_short (lit "R") (lit "a" ++ [nl] ++ lit "b")
           (lit "m") (-1) H).
Defined.

(** ** Construction and the [code] setter *)

Section Setter.

Import Char Re Shader Syntax Lifecycle.


End Setter.


(** X17. Replacing the source of an object that holds a positive handle,
    by text that is not a file name and is not empty, succeeds, and
    creating again compiles the new text on the handle the object has: no
    handle is asked for, and the outcome is that of the driver for the new
    text. *)
Theorem replace_source_then_create (gl : driver) (fs : filesystem)
    (self : shader) (text : str) :
  (0 < _handle self)%Z -> isfile fs text = false -> text <> [] ->
  let after := snd (set_code fs self text) in
  fst (set_code fs self text) = Ok tt
  /\ (compile_status gl (_handle self) text <> 0%Z ->
   _create gl after
   = mkOutcome (Ok tt) after
       [glShaderSource (_handle self) text;
        log_debug (lit "GPU: Creating shader");
        glCompileShader (_handle self); glGetShaderiv (_handle self)] [])
  /\ (compile_status gl (_handle self) text = 0%Z ->
      state (_create gl after) = after
      /\ calls (_create gl after)
         = [glShaderSource (_handle self) text;
            log_debug (lit "GPU: Creating shader");
            glCompileShader (_handle self); glGetShaderiv (_handle self);
            glGetShaderInfoLog (_handle self)]
      /\ exists e, returned (_create gl after) = Raise e).
Proof.
  intros Hh Hf Hne after.
  assert (Hc : _code after = Some text)
    by (subst after; unfold set_code; now rewrite Hf).
  assert (Ha : _handle after = _handle self)
    by (subst after; unfold set_code; now rewrite Hf).
  split; [unfold set_code; now rewrite Hf|].
  rewrite (create_unfold gl after text Hc Hne). cbn zeta. rewrite Ha.
  replace (_handle self <=? 0)%Z with false by (symmetry; lia). rewrite Ha.
  replace (_handle self <=? 0)%Z with false by (symmetry; lia).
  split; intros Hs.
  - replace (compile_status gl (_handle self) text =? 0)%Z with false
      by (symmetry; lia).
    reflexivity.
  - rewrite Hs. cbn [Z.eqb].
    destruct (_parse_error _) as [[? ?]|?]; cbn [state calls returned app];
      repeat split; eauto.
Qed.

Lemma replace_source_then_create_witness :
  let gl := mkDriver (fun _ => 5%Z) (fun _ _ => 1%Z) (fun _ _ => []) in
  let fs := mkFilesystem (fun _ => false) (fun _ => Ok []) in
  let self := mkShader GL_VERTEX_SHADER (Some (lit "old")) (Some (lit "<string>"))
                       7 1 false in
  (0 < _handle self)%Z /\ isfile fs (lit "new") = false /\ lit "new" <> []
  /\ calls (_create gl (snd (set_code fs self (lit "new"))))
     = [glShaderSource 7 (lit "new"); log_debug (lit "GPU: Creating shader");
        glCompileShader 7; glGetShaderiv 7].
Proof.
  intros gl fs self.
  assert (H1 : (0 < _handle self)%Z) by reflexivity.
  assert (H3 : lit "new" <> []) by discriminate.
  assert (H4 : compile_status gl (_handle self) (lit "new") <> 0%Z)
    by discriminate.
  split; [exact H1|]. split; [reflexivity|]. split; [exact H3|].
  exact (f_equal calls
           (proj1 (proj2 (replace_source_then_create gl fs self (lit "new")
                            H1 eq_refl H3)) H4)).
Defined.

(** X18. [__init__] raises [Shader target must be vertex or fragment]
    for any target but the two shader targets, whatever the code, and
    before the code is looked at.  With one of the two targets it builds
    the object exactly when there is no code, or the code names no file,
    or the file can be read; when the file cannot be read the exception
    of the read is what [__init__] raises.  An object built without code
    holds none: its creation raises [No code has been given] without a
    call to the graphics API, and reading [uniforms] or [attributes]
    raises a type error, there being no text to strip. *)
Theorem init_outcomes (env : environment) (target : Z) (code : option str) :
  ((exists self, __init__ env target code = Ok self)
   <-> (target = vertex_enum env \/ target = fragment_enum env)
       /\ (forall path, code = Some path -> isfile (files env) path = true ->
             exists text, read_text (files env) path = Ok text))
  /\ (target <> vertex_enum env -> target <> fragment_enum env ->
      __init__ env target code
      = Raise (ValueError (lit "Shader target must be vertex or fragment")))
  /\ (forall path e,
        target = vertex_enum env \/ target = fragment_enum env ->
        code = Some path -> isfile (files env) path = true ->
        read_text (files env) path = Raise e ->
        __init__ env target code = Raise e)
  /\ (forall self, __init__ env target None = Ok self ->
        get_code self = None /\ source self = None
        /\ (forall gl,
              _create gl self
              = mkOutcome (Raise (RuntimeError (lit "No code has been given")))
                          self [] [])
        /\ fst (uniforms self) = Raise TypeError
        /\ fst (attributes self) = Raise TypeError).
Proof.
  assert (Hcode : forall kind,
            let self := mkShader kind None None (fresh_handle env)
                                 (fresh_id env) (fresh_need_update env) in
            ((exists self',
                 match code with
                 | Some c =>
                     match set_code (files env) self c with
                     | (Ok _, self') => Ok self'
                     | (Raise e, _) => Raise e
                     end
                 | None => Ok self
                 end = Ok self')
             <-> (forall path, code = Some path ->
                    isfile (files env) path = true ->
                    exists text, read_text (files env) path = Ok text))
            /\ (forall path e,
                  code = Some path -> isfile (files env) path = true ->
                  read_text (files env) path = Raise e ->
                  match code with
                  | Some c =>
                      match set_code (files env) self c with
                      | (Ok _, self') => Ok self'
                      | (Raise e, _) => Raise e
                      end
                  | None => Ok self
                  end = Raise e)).
  { intros kind self. destruct code as [c|].
    - unfold set_code. destruct (isfile (files env) c) eqn:Ef.
      + destruct (read_text (files env) c) as [text|e0] eqn:Er.
        * split.
          -- split; [|eauto]. intros _ path [= <-] _. eauto.
          -- intros path e [= <-] _ H. congruence.
        * split.
          -- split; [intros [self' H]; discriminate H|].
             intros H. destruct (H c eq_refl Ef) as [text Ht]. congruence.
          -- intros path e [= <-] _ H. congruence.
      + split.
        * split; [|eauto]. intros _ path [= <-] H. congruence.
        * intros path e [= <-] H. congruence.
    - split.
      + split; [|eauto]. intros _ path H. discriminate H.
      + intros path e H. discriminate H. }
  unfold __init__, target_kind.
  destruct (target =? vertex_enum env)%Z eqn:Ev;
    [|destruct (target =? fragment_enum env)%Z eqn:Ef].
  - destruct (Hcode GL_VERTEX_SHADER) as [H1 H2]. split; [|split; [|split]].
    + rewrite H1. split; [intros H; split; [left; lia|exact H]|tauto].
    + intros H; lia.
    + intros path e _. apply H2.
    + intros self [= <-]. repeat split.
  - destruct (Hcode GL_FRAGMENT_SHADER) as [H1 H2]. split; [|split; [|split]].
    + rewrite H1. split; [intros H; split; [right; lia|exact H]|tauto].
    + intros _ H; lia.
    + intros path e _. apply H2.
    + intros self [= <-]. repeat split.
  - split; [|split; [|split]].
    + split; [intros [self H]; discriminate H|intros [[H|H] _]; lia].
    + reflexivity.
    + intros path e [H|H]; lia.
    + intros self H. discriminate H.
Qed.

Lemma init_outcomes_witness :
  let env := mkEnvironment 35633 35632 (-1) 1 true
               (mkFilesystem (fun _ => true)
                  (fun _ => Raise (UnicodeDecodeError (lit "invalid start byte")))) in
  (35634 <> vertex_enum env)%Z /\ (35634 <> fragment_enum env)%Z
  /\ __init__ env 35634 (Some (lit "shader.vert"))
     = Raise (ValueError (lit "Shader target must be vertex or fragment"))
  /\ __init__ env 35633 (Some (lit "shader.vert"))
     = Raise (UnicodeDecodeError (lit "invalid start byte"))
  /\ fst (uniforms (mkShader GL_VERTEX_SHADER None None (-1) 1 true))
     = Raise TypeError.
Proof.
  intros env.
  assert (H1 : (35634 <> vertex_enum env)%Z) by discriminate.
  assert (H2 : (35634 <> fragment_enum env)%Z) by discriminate.
  split; [exact H1|]. split; [exact H2|]. split; [|split].
  - exact (proj1 (proj2 (init_outcomes env 35634 (Some (lit "shader.vert"))))
             H1 H2).
  - exact (proj1 (proj2 (proj2 (init_outcomes env 35633 (Some (lit "shader.vert")))))
             (lit "shader.vert") _ (or_introl eq_refl) eq_refl eq_refl eq_refl).
  - exact (proj1 (proj2 (proj2 (proj2
             (proj2 (proj2 (proj2 (init_outcomes env 35633 None))) _ eq_refl))))).
Defined.

(** X19. [VertexShader(code)] and [FragmentShader(code)] never raise the
    target error.  Built from text that is not a file name, the object
    holds that text, both properties read it at once, before any
    creation, and its printed form names its kind, its identifier and the
    origin [<string>]; for the fragment shader this asks that the two
    target numbers differ. *)
Theorem shader_classes (env : environment) (text : str) :
  isfile (files env) text = false ->
  (exists self,
      VertexShader env (Some text) = Ok self
      /\ get_code self = Some text
      /\ fst (uniforms self) = declarations (lit "uniform") text
      /\ fst (attributes self) = declarations (lit "attribute") text
      /\ repr self
         = lit "Vertex Shader " ++ fmt_d (fresh_id env) ++ lit " (<string>)")
  /\ (vertex_enum env <> fragment_enum env ->
      exists self,
        FragmentShader env (Some text) = Ok self
        /\ get_code self = Some text
        /\ fst (uniforms self) = declarations (lit "uniform") text
        /\ fst (attributes self) = declarations (lit "attribute") text
        /\ repr self
           = lit "Fragment Shader " ++ fmt_d (fresh_id env)
             ++ lit " (<string>)").
Proof.
  intros Hf. split.
  - unfold VertexShader, __init__, target_kind. rewrite Z.eqb_refl.
    unfold set_code. rewrite Hf.
    eexists. split; [reflexivity|]. repeat split.
  - intros Hd. unfold FragmentShader, __init__, target_kind.
    replace (fragment_enum env =? vertex_enum env)%Z with false
      by (symmetry; lia).
    rewrite Z.eqb_refl. unfold set_code. rewrite Hf.
    eexists. split; [reflexivity|]. repeat split.
Qed.

Lemma shader_classes_witness :
  let env := mkEnvironment 35633 35632 (-1) 4 true
               (mkFilesystem (fun _ => false) (fun _ => Ok [])) in
  isfile (files env) (lit "uniform float a;") = false
  /\ (vertex_enum env <> fragment_enum env)%Z
  /\ exists self,
       FragmentShader env (Some (lit "uniform float a;")) = Ok self
       /\ fst (uniforms self) = Ok [(lit "a", GL_FLOAT)]
       /\ repr self = lit "Fragment Shader 4 (<string>)".
Proof.
  intros env.
  assert (Hd : (vertex_enum env <> fragment_enum env)%Z) by discriminate.
  split; [reflexivity|]. split; [exact Hd|].
  destruct (proj2 (shader_classes env (lit "uniform float a;") eq_refl) Hd)
    as (self & H & _ & Hu & _ & Hr).
  exists self. split; [exact H|]. split; [exact Hu|exact Hr].
Defined.

(** ** Blanks inside the brackets *)

Section Brackets.

Import Char Re Shader Syntax Lifecycle.

(** The declaration pattern on a declaration whose list of names is any
    run of the characters it allows. *)
Lemma type_match_body kw lead sep1 ty sep2 body rest :
  run is_word kw = true ->
  forallb is_space lead = true -> run is_space sep1 = true ->
  run is_word ty = true -> run is_space sep2 = true ->
  run is_namelist body = true -> stops is_space body = true ->
  match_ (re_type kw)
         ((lead ++ kw ++ sep1 ++ ty ++ sep2 ++ body ++ lit ";") ++ rest)
  = Some (mkMatch (lead ++ kw ++ sep1 ++ ty ++ sep2 ++ body ++ lit ";")
                  [(2, body); (1, ty)]).
Proof.
  intros Hkw H0 H1 HT H2 Hb Hsb.
  apply match_intro. intros k v Hk. rewrite <- !app_assoc.
  pose proof (run_inv _ _ Hkw) as (kx & kw' & Ek & Hkx & _).
  pose proof (run_inv _ _ HT) as (tx & ty' & Et & Htx & _).
  pose proof (run_inv _ _ H2) as (s2 & s2' & E2 & Hs2 & _).
  unfold re_type. rewrite exec_cat.
  apply exec_star; [exact H0| |].
  { rewrite Ek. simpl. now rewrite (word_not_space _ Hkx). }
  rewrite exec_cat, exec_lit, exec_cat.
  apply exec_plus; [exact H1| |].
  { rewrite Et. simpl. now rewrite (word_not_space _ Htx). }
  rewrite exec_cat.
  apply exec_grp_plus; [exact HT| |].
  { rewrite E2. simpl. now rewrite (space_not_word _ Hs2). }
  rewrite exec_cat.
  apply exec_plus; [exact H2| |].
  { destruct body as [|bx b]; [discriminate Hb|exact Hsb]. }
  rewrite exec_cat.
  apply exec_grp_plus; [exact Hb|reflexivity|].
  rewrite exec_lit. exact Hk.
Qed.

(** The names pattern on [a[ N ]], blanks after the opening bracket: the
    name, then the size as a second name. *)
Lemma names_blank_in_brackets a ds n1 n2 :
  run is_word a = true -> run is_digit ds = true ->
  finditer re_names
           (a ++ lit "[" ++ spaces (S n1) ++ ds ++ spaces n2 ++ lit "]")
  = [mkMatch a [(1, a)]; mkMatch (ds ++ spaces n2) [(1, ds)]].
Proof.
  intros Ha Hd.
  assert (Hdw : run is_word ds = true).
  { apply run_inv in Hd as (x & w & -> & Hx & Hw).
    apply run_intro; [now apply digit_is_word|].
    apply (forallb_impl _ _ _ digit_is_word Hw). }
  rewrite finditer_hit with (c := [(1, a)]).
  - f_equal.
    change (lit "[" ++ spaces (S n1) ++ ds ++ spaces n2 ++ lit "]")
      with (("["%char :: spaces (S n1)) ++ ds ++ spaces n2 ++ lit "]").
    rewrite (finditer_keep_all re_names (fun c => negb (is_word c)));
      [|apply names_miss|cbn [forallb]; now rewrite spaces_not_word].
    rewrite app_assoc.
    rewrite finditer_hit with (c := [(1, ds)]); [reflexivity| |].
    + apply match_intro. intros k v Hk. rewrite <- app_assoc.
      unfold re_names. rewrite exec_cat.
      apply exec_grp_plus; [exact Hdw| |].
      { apply stops_app with (q := is_space);
          [apply space_not_word|apply spaces_space|reflexivity]. }
      rewrite exec_cat. apply exec_star; [apply spaces_space|reflexivity|].
      rewrite exec_opt_skip; [exact Hk|reflexivity].
    + destruct ds; discriminate.
  - apply match_intro. intros k v Hk.
    unfold re_names. rewrite exec_cat.
    apply exec_grp_plus; [exact Ha|reflexivity|].
    rewrite exec_cat.
    apply (exec_star is_space _ [] _ _ v); [reflexivity|reflexivity|].
    rewrite exec_opt_skip; [exact Hk|reflexivity].
  - destruct a; discriminate.
Qed.

End Brackets.

(** X20. A blank after the opening bracket undoes the array: in
    [<qualifier> T a[ N ];] the names pattern does not see a size, and
    the extraction returns two plain entries of type [T], one named [a]
    and one named by the digits of [N], instead of the [N] entries of
    the array; no error is raised, not even for size 0. *)
Theorem blank_in_brackets (kw ty a ds rest : str) (g : gltype) (n1 n2 : nat) :
  run is_word kw = true ->
  lookup _gtypes ty = Some g -> run is_word ty = true ->
  run is_word a = true -> run is_digit ds = true ->
  declarations kw
    (kw ++ lit " " ++ ty ++ lit " "
        ++ (a ++ lit "[" ++ spaces (S n1) ++ ds ++ spaces n2 ++ lit "]")
        ++ lit ";" ++ rest)
  = prepend [(a, g); (ds, g)] (declarations kw rest).
Proof.
  intros Hkw Hg HT Ha Hd.
  set (body := a ++ lit "[" ++ spaces (S n1) ++ ds ++ spaces n2 ++ lit "]").
  assert (Hall : forallb is_namelist body = true).
  { subst body. rewrite !forallb_app.
    rewrite (forallb_impl _ _ _ word_is_namelist (run_forallb _ _ Ha)).
    rewrite (forallb_impl _ _ _ (fun x H => word_is_namelist x (digit_is_word x H))
               (run_forallb _ _ Hd)).
    assert (Hsp : forall n, forallb is_namelist (spaces n) = true)
      by (intros n; now apply forallb_repeat).
    now rewrite !Hsp. }
  assert (Hb : run is_namelist body = true).
  { unfold run. rewrite Hall. subst body.
    apply run_inv in Ha as (x & w & -> & _ & _). reflexivity. }
  assert (Hsb : stops is_space body = true).
  { subst body. apply run_inv in Ha as (x & w & -> & Hx & _).
    simpl. now rewrite (word_not_space _ Hx). }
  replace (kw ++ lit " " ++ ty ++ lit " " ++ body ++ lit ";" ++ rest)
    with (([] ++ kw ++ lit " " ++ ty ++ lit " " ++ body ++ lit ";") ++ rest)
    by (cbn [app]; now rewrite <- !app_assoc).
  pose proof (type_match_body kw [] (lit " ") ty (lit " ") body
                (_remove_comments rest)
                Hkw eq_refl eq_refl HT eq_refl Hb Hsb) as Hm.
  unfold declarations.
  rewrite strip_plain.
  2:{ cbn [app]. rewrite !forallb_app.
      rewrite (forallb_impl _ _ _ word_plain (run_forallb _ _ Hkw)).
      rewrite (forallb_impl _ _ _ word_plain (run_forallb _ _ HT)).
      rewrite (forallb_impl _ _ _ namelist_plain Hall). reflexivity. }
  rewrite (finditer_hit _ _ _ _ Hm)
    by (cbn [app]; apply run_inv in Hkw as (x & w & -> & _); discriminate).
  cbn [for_each]. unfold add_declaration at 1.
  change (group_str (mkMatch _ [(2, body); (1, ty)]) 1) with ty.
  change (group_str (mkMatch _ [(2, body); (1, ty)]) 2) with body.
  unfold gtypes_getitem. rewrite Hg. cbn [bind].
  subst body. rewrite (names_blank_in_brackets a ds n1 n2 Ha Hd).
  cbn [for_each bind add_name groups group Nat.eqb group_str app].
  apply for_each_shift, add_declaration_shift.
Qed.

Lemma blank_in_brackets_witness :
  run is_word (lit "uniform") = true
  /\ lookup _gtypes (lit "float") = Some GL_FLOAT
  /\ run is_word (lit "float") = true
  /\ run is_word (lit "a") = true /\ run is_digit (lit "0") = true
  /\ declarations (lit "uniform") (lit "uniform float a[ 0 ];")
     = Ok [(lit "a", GL_FLOAT); (lit "0", GL_FLOAT)].
Proof.
  repeat (split; [reflexivity|]).
  exact (blank_in_brackets (lit "uniform") (lit "float") (lit "a") (lit "0") []
           GL_FLOAT 0 1 eq_refl eq_refl eq_refl eq_refl eq_refl).
Defined.

(** ** Array names and the table of types *)

Section Names.

Import Char Re Shader Syntax Lifecycle.

Lemma dec_injective i j : Num.dec i = Num.dec j -> i = j.
Proof. intros H. apply (f_equal Num.int) in H. now rewrite !int_dec in H. Qed.

Lemma iname_injective a i j : iname a i = iname a j -> i = j.
Proof.
  unfold iname. intros H. apply app_inv_head in H. apply app_inv_head in H.
  apply app_inv_tail in H. now apply dec_injective.
Qed.

Lemma inames_nodup a (g : gltype) : forall n k,
  NoDup (map (fun i => fst (iname a i, g)) (seq k n)).
Proof.
  induction n as [|n IH]; intros k; [constructor|].
  cbn [seq map fst]. constructor; [|apply IH].
  intros Hin. apply in_map_iff in Hin as (j & Hj & Hin).
  cbn [fst] in Hj. apply iname_injective in Hj. subst j.
  apply in_seq in Hin. lia.
Qed.

End Names.

(** X21. One match of the names pattern that carries a size adds, when
    the size is not 0, as many entries as the size says, behind those
    already collected, all with the type of the declaration and no two
    with the same name; when the size is 0 it adds nothing and raises. *)
Theorem array_names_distinct (gtype : gltype) (acc : list entry) (m : Match)
    (digits : str) :
  group (groups m) 3 = Some digits ->
  (Num.int digits = 0 ->
   add_name gtype acc m
   = Raise (RuntimeError (lit "Size of uniform array cannot be zero")))
  /\ (Num.int digits <> 0 ->
      exists added,
        add_name gtype acc m = Ok (acc ++ added)
        /\ length added = Num.int digits
        /\ NoDup (map fst added)
        /\ (forall e, In e added -> snd e = gtype)).
Proof.
  intros H. unfold add_name. rewrite H. split; intros Hn.
  - now rewrite Hn.
  - apply Nat.eqb_neq in Hn. rewrite Hn.
    exists (map (fun i => (iname (group_str m 1) i, gtype))
              (seq 0 (Num.int digits))).
    split; [reflexivity|]. split; [|split].
    + now rewrite length_map, length_seq.
    + rewrite map_map. apply inames_nodup.
    + intros e He. apply in_map_iff in He as (i & <- & _). reflexivity.
Qed.

Lemma array_names_distinct_witness :
  let m := mkMatch (lit "a[12]")
             [(2, lit "[12]"); (3, lit "12"); (1, lit "a")] in
  match_ re_names (lit "a[12]") = Some m
  /\ group (groups m) 3 = Some (lit "12")
  /\ Num.int (lit "12") <> 0
  /\ exists added,
       add_name GL_FLOAT [] m = Ok ([] ++ added)
       /\ length added = Num.int (lit "12")
       /\ NoDup (map fst added)
       /\ (forall e, In e added -> snd e = GL_FLOAT).
Proof.
  intros m. split; [vm_compute; reflexivity|]. split; [reflexivity|].
  assert (Hn : Num.int (lit "12") <> 0) by (vm_compute; discriminate).
  split; [exact Hn|].
  exact (proj2 (array_names_distinct GL_FLOAT [] m (lit "12") eq_refl) Hn).
Defined.

(** X22. Every key of [_gtypes] is a type the extraction reads: a
    declaration of one name with that type yields that name with the tag
    the table gives for the key, for [uniforms] and for [attributes]; no
    key is hidden by another and none falls outside the characters the
    pattern takes for a type. *)
Theorem every_table_type_is_read (ty : str) (g : gltype) (self : shader) :
  In (ty, g) _gtypes ->
  (_code self = Some (lit "uniform " ++ ty ++ lit " x;") ->
   fst (uniforms self) = Ok [(lit "x", g)])
  /\ (_code self = Some (lit "attribute " ++ ty ++ lit " x;") ->
      fst (attributes self) = Ok [(lit "x", g)]).
Proof.
  intros Hin. unfold uniforms, attributes, read_declarations.
  unfold _gtypes in Hin. cbn [In] in Hin.
  repeat (destruct Hin as [Hin|Hin];
          [injection Hin as <- <-; split; intros ->; vm_compute; reflexivity|]).
  destruct Hin.
Qed.

Lemma every_table_type_is_read_witness :
  In (lit "sampler2D", GL_SAMPLER_2D) _gtypes
  /\ fst (uniforms (sample (lit "uniform sampler2D x;")))
     = Ok [(lit "x", GL_SAMPLER_2D)].
Proof.
  assert (H : In (lit "sampler2D", GL_SAMPLER_2D) _gtypes)
    by (unfold _gtypes; cbn [In]; do 16 right; left; reflexivity).
  split; [exact H|].
  exact (proj1 (every_table_type_is_read (lit "sampler2D") GL_SAMPLER_2D
                  (sample (lit "uniform " ++ lit "sampler2D" ++ lit " x;")) H)
           eq_refl).
Defined.

(** ** Quoted runs and line comments, on an example *)

Lemma strip_quoted_witness :
  forallb plain (lit "a = ") = true /\ (squote = dquote \/ squote = squote)
  /\ forallb (fun x => negb (Ascii.eqb squote x)) (lit "/* b */ // c") = true
  /\ _remove_comments (lit "a = " ++ (squote :: lit "/* b */ // c" ++ [squote])
                            ++ lit " /* d */")
     = lit "a = " ++ (squote :: lit "/* b */ // c" ++ [squote]) ++ lit " ".
Proof.
  split; [reflexivity|]. split; [right; reflexivity|]. split; [reflexivity|].
  exact (strip_quoted (lit "a = ") squote (lit "/* b */ // c") (lit " /* d */")
           eq_refl (or_intror eq_refl) eq_refl).
Defined.

Lemma strip_line_witness :
  forallb plain (lit "a ") = true
  /\ forallb not_crlf (lit " b /* c") = true /\ at_eol (nl :: lit "d") = true
  /\ _remove_comments (lit "a " ++ (lit "//" ++ lit " b /* c") ++ nl :: lit "d")
     = lit "a " ++ nl :: lit "d".
Proof.
  split; [reflexivity|]. split; [reflexivity|]. split; [reflexivity|].
  exact (strip_line (lit "a ") (lit " b /* c") (nl :: lit "d")
           eq_refl eq_refl eq_refl).
Defined.
